(** * fruitbox: the round / grid / score state manager

    A shallow embedding of [src/Game/GameState.h] and [src/Game/GameState.cpp]
    (namespace [fruitbox]) and the properties of its three operations
    [InitRound], [UpdatePlayerScore] and [GetOrAddPlayer].

    Conventions of the embedding:
    - [std::size_t] is an unsigned 64-bit integer (LP64), a [Z] in
      [0, 2^64) whose arithmetic wraps ([SizeT.wrap]);
    - [std::vector<std::size_t>] is a [list Z];
    - [std::unordered_map<std::string, Player>] is a [gmap string Player];
    - [std::array<std::array<Cell, WIDTH>, HEIGHT>] is a list of rows;
    - the random engine and [std::uniform_int_distribution] belong to the
      C++ standard library: they are an interface ([URBG]) whose only
      assumed law is the distribution's range contract ([dist_in_range]);
      [Mt19937] is an instance;
    - an operation that reaches undefined behaviour ([back()] of an empty
      vector) returns [None]. *)

From Stdlib Require Import ZArith Lia.
From stdpp Require Import base option list strings gmap fin_maps.

Local Open Scope Z_scope.

(** ** [std::size_t] *)

Module SizeT.

Definition bits : Z := 64.
Definition modulus : Z := 2 ^ bits.
Definition max : Z := modulus - 1.

(** Conversion of an integer to [std::size_t]. *)
Definition wrap (z : Z) : Z := z mod modulus.

Definition in_range (z : Z) : Prop := 0 <= z < modulus.

(** [a + b] on [std::size_t]. *)
Definition add (a b : Z) : Z := wrap (a + b).

(** [x++] on [std::size_t]: the new value. *)
Definition incr (a : Z) : Z := add a 1.

End SizeT.

(** ** [std::vector<std::size_t>] *)

Module Vector.

(** [v.push_back(x)] *)
Definition push_back (v : list Z) (x : Z) : list Z := v ++ [x].

(** [v.clear()] *)
Definition clear (v : list Z) : list Z := [].

(** [v.back()]: undefined on an empty vector. *)
Definition back (v : list Z) : option Z := last v.

(** [v.back() += d]: reads the last element, writes the wrapped sum in
    its place; undefined on an empty vector. *)
Definition back_add_assign (v : list Z) (d : Z) : option (list Z) :=
  x ← back v;
  Some (<[pred (length v) := SizeT.add x d]> v).

(** The sum of the entries, over the integers. *)
Definition sum (v : list Z) : Z := foldr Z.add 0 v.

End Vector.

(** ** The random source

    [rng_] has type [std::mt19937]; [InitRound] draws from it through a
    [std::uniform_int_distribution<std::size_t>].  Both come from
    [<random>]. *)

Class URBG := {
  engine : Type;
  (** [e.seed(value)] *)
  engine_seed : Z → engine;
  (** [std::uniform_int_distribution<std::size_t> dist(a, b); dist(e)]:
      the value drawn and the advanced engine. *)
  uniform_int_distribution : Z → Z → engine → Z * engine
}.

(** The contract of [std::uniform_int_distribution] ([rand.dist.uni.int]):
    the value drawn lies in the closed range [[a, b]]. *)
Definition dist_in_range `{URBG} : Prop :=
  ∀ (a b : Z) (e : engine), a <= b → a <= (uniform_int_distribution a b e).1 <= b.

(** *** [std::mt19937] ([rand.eng.mers], [rand.predef]) *)

Module Mt19937.

Definition n : nat := 624.
Definition m : nat := 397.
Definition word (z : Z) : Z := Z.land z 4294967295.
Definition upper_mask : Z := 2147483648.
Definition lower_mask : Z := 2147483647.
Definition matrix_a : Z := 2567483615.
Definition init_multiplier : Z := 1812433253.

Record state := { mt : list Z; mti : nat }.

Fixpoint seed_fill (k : nat) (i : Z) (prev : Z) : list Z :=
  match k with
  | O => []
  | S k' =>
      let x := word (init_multiplier * Z.lxor prev (Z.shiftr prev 30) + i) in
      x :: seed_fill k' (i + 1) x
  end.

Definition seed (value : Z) : state :=
  let x0 := word value in
  {| mt := x0 :: seed_fill (pred n) 1 x0; mti := n |}.

Definition at_ (v : list Z) (k : nat) : Z := default 0 (v !! k).

Definition twist_one (v : list Z) (k : nat) : list Z :=
  let y := Z.lor (Z.land (at_ v k) upper_mask)
                 (Z.land (at_ v ((k + 1) mod n)%nat) lower_mask) in
  let mag := if Z.odd y then matrix_a else 0 in
  <[k := Z.lxor (Z.lxor (at_ v ((k + m) mod n)%nat) (Z.shiftr y 1)) mag]> v.

Definition twist (v : list Z) : list Z := foldl twist_one v (seq 0 n).

Definition temper (y : Z) : Z :=
  let y1 := Z.lxor y (Z.land (Z.shiftr y 11) 4294967295) in
  let y2 := Z.lxor y1 (Z.land (Z.shiftl y1 7) 2636928640) in
  let y3 := Z.lxor y2 (Z.land (Z.shiftl y2 15) 4022730752) in
  Z.lxor y3 (Z.shiftr y3 18).

(** [e()] *)
Definition next (e : state) : Z * state :=
  let v := if decide (n ≤ mti e)%nat then twist (mt e) else mt e in
  let i := if decide (n ≤ mti e)%nat then O else mti e in
  (temper (at_ v i), {| mt := v; mti := S i |}).

(** [e.discard(k)] *)
Fixpoint discard (k : nat) (e : state) : state :=
  match k with
  | O => e
  | S k' => discard k' (next e).2
  end.

(** The standard fixes the range of what the distribution returns, not
    its algorithm; this one reduces an engine output into the range. *)
Definition draw (a b : Z) (e : state) : Z * state :=
  let r := next e in (a + (r.1 mod (b - a + 1)), r.2).

End Mt19937.

Definition mt19937 : URBG :=
  {| engine := Mt19937.state;
     engine_seed := Mt19937.seed;
     uniform_int_distribution := Mt19937.draw |}.

(** ** The data model ([GameState.h]) *)

Record Cell := { num_ : Z }.

(** A player with the collected scores: one cumulative entry per round in
    [scores], the deltas of the round being played in
    [current_round_scores_]. *)
Record Player := {
  scores : list Z;
  current_round_scores_ : list Z
}.

(** A value-initialised [Player]: what [players_[name]] inserts on a miss. *)
Definition Player_default : Player :=
  {| scores := []; current_round_scores_ := [] |}.

Definition HEIGHT : nat := 10.
Definition WIDTH : nat := 17.

Abbreviation grid_t := (list (list Cell)).

(** [for (std::size_t i = 0; i < n; ++i) body(i)] over a threaded state. *)
Definition for_loop {S : Type} (n : nat) (body : nat → S → S) (s : S) : S :=
  foldl (λ acc i, body i acc) s (seq 0 n).

(** [grid_t grid{}]: every cell value-initialised. *)
Definition grid_init : grid_t :=
  replicate HEIGHT (replicate WIDTH {| num_ := 0 |}).

(** [grid[i][j].num_ = v] *)
Definition grid_assign (i j : nat) (v : Z) (g : grid_t) : grid_t :=
  alter (λ row, <[j := {| num_ := v |}]> row) i g.

(** [players_[name]]: the entry read through the returned reference, and
    the map, which gains a value-initialised entry on a miss. *)
Definition operator_at (name : string) (m : gmap string Player)
  : Player * gmap string Player :=
  match m !! name with
  | Some p => (p, m)
  | None => (Player_default, <[name := Player_default]> m)
  end.

(** [for (auto &[_, player] : players_) body(player)]: every entry is
    visited once and updated in place. *)
Definition for_each_player (body : Player → Player) (m : gmap string Player)
  : gmap string Player :=
  foldr (λ kp acc, alter body kp.1 acc) m (map_to_list m).

(** The body of the player loop of [InitRound]. *)
Definition start_round (p : Player) : Player :=
  {| scores := Vector.push_back (scores p) 0;
     current_round_scores_ := Vector.clear (current_round_scores_ p) |}.

(** The trailing entry of [scores] is the total of the deltas of the round,
    in [std::size_t] arithmetic. *)
Definition back_is_round_total (p : Player) : Prop :=
  scores p ≠ [] →
  Vector.back (scores p) =
    Some (SizeT.wrap (Vector.sum (current_round_scores_ p))).

Definition deltas_nonneg (p : Player) : Prop :=
  Forall (λ d, 0 <= d) (current_round_scores_ p).

(** The calls a client can make on a manager. *)
Inductive call :=
| CallInitRound
| CallGetOrAddPlayer (player_name : string)
| CallUpdatePlayerScore (player_name : string) (delta : Z).

Definition is_init_round (c : call) : bool :=
  match c with CallInitRound => true | _ => false end.

(** Whether a call names the player: both [GetOrAddPlayer] and
    [UpdatePlayerScore] go through [players_[name]]. *)
Definition references (name : string) (c : call) : bool :=
  match c with
  | CallInitRound => false
  | CallGetOrAddPlayer x | CallUpdatePlayerScore x _ => bool_decide (x = name)
  end.

(** The arguments of a call are values of their C++ types. *)
Definition call_args_in_range (c : call) : Prop :=
  match c with
  | CallUpdatePlayerScore _ delta => SizeT.in_range delta
  | _ => True
  end.

Definition count_rounds (calls : list call) : nat :=
  length (filter (λ c, is_init_round c = true) calls).

(** The number of [InitRound] calls after the first call that names the
    player; [None] when no call names it. *)
Fixpoint rounds_since_first_reference (name : string) (calls : list call)
  : option nat :=
  match calls with
  | [] => None
  | c :: rest =>
      if references name c then Some (count_rounds rest)
      else rounds_since_first_reference name rest
  end.

(** The deltas passed for a player by the [UpdatePlayerScore] calls of a
    call sequence, in call order. *)
Definition deltas_for (name : string) (calls : list call) : list Z :=
  omap (λ c, match c with
             | CallUpdatePlayerScore x delta =>
                 if bool_decide (x = name) then Some delta else None
             | _ => None
             end) calls.

(** The calls made since the last [InitRound] call (all of them when
    there was none). *)
Definition current_round_calls (calls : list call) : list call :=
  foldl (λ acc c, if is_init_round c then [] else acc ++ [c]) [] calls.

(** The names passed to [GetOrAddPlayer]. *)
Definition added_names (calls : list call) : list string :=
  omap (λ c, match c with CallGetOrAddPlayer x => Some x | _ => None end) calls.

(** A call is in order after the calls [pre] on a new manager: an
    [UpdatePlayerScore] needs a round started after the player was first
    named. *)
Definition call_in_order (pre : list call) (c : call) : Prop :=
  match c with
  | CallUpdatePlayerScore name _ =>
      ∃ k, rounds_since_first_reference name pre = Some (S k)
  | _ => True
  end.

Definition calls_in_order (calls : list call) : Prop :=
  ∀ pre c post, calls = pre ++ c :: post → call_in_order pre c.


(** All entries of [scores] but the last: the totals of the rounds
    already closed. *)
Definition closed_totals (p : Player) : list Z :=
  take (length (scores p) - 1) (scores p).

(** Every entry of a player is a [std::size_t] value. *)
Definition player_in_range (p : Player) : Prop :=
  Forall SizeT.in_range (scores p) ∧
  Forall SizeT.in_range (current_round_scores_ p).

(** The manager; [E] is the type of the random engine [rng_]. *)
Record GameState (E : Type) := {
  players_ : gmap string Player;
  total_rounds_ : Z;
  current_round_ : Z;
  rng_ : E
}.

Arguments Build_GameState {E} _ _ _ _.
Arguments players_ {E} _.
Arguments total_rounds_ {E} _.
Arguments current_round_ {E} _.
Arguments rng_ {E} _.

Section Game.
Context `{R : URBG}.

(** [GameState::GameState() { rng_.seed(0); }] with the default member
    initialisers of the header. *)
Definition GameState_ctor : GameState engine :=
  {| players_ := ∅; total_rounds_ := 0; current_round_ := 0;
     rng_ := engine_seed 0 |}.

Definition set_players (m : gmap string Player) (s : GameState engine) : GameState engine :=
  {| players_ := m; total_rounds_ := total_rounds_ s;
     current_round_ := current_round_ s; rng_ := rng_ s |}.

(** [grid[i][j].num_ = dist(rng_)] with [dist(1, 5)]. *)
Definition fill_cell (i j : nat) (st : grid_t * engine) : grid_t * engine :=
  let '(grid, e) := st in
  let '(v, e') := uniform_int_distribution 1 5 e in
  (grid_assign i j v grid, e').

Definition fill_row (i : nat) (st : grid_t * engine) : grid_t * engine :=
  for_loop WIDTH (fill_cell i) st.

Definition fill_grid (e : engine) : grid_t * engine :=
  for_loop HEIGHT fill_row (grid_init, e).

(** [grid_t GameState::InitRound()]: the grid returned and the state
    left behind. *)
Definition InitRound (s : GameState engine) : grid_t * GameState engine :=
  let filled := fill_grid (rng_ s) in
  (filled.1,
   {| players_ := for_each_player start_round (players_ s);
      total_rounds_ := total_rounds_ s;
      current_round_ := SizeT.incr (current_round_ s);
      rng_ := filled.2 |}).

(** [void GameState::UpdatePlayerScore(name, delta)]; [None] when the
    call reaches [back()] on an empty vector. *)
Definition UpdatePlayerScore (player_name : string) (delta : Z)
    (s : GameState engine) : option (GameState engine) :=
  let '(p1, m1) := operator_at player_name (players_ s) in
  scores1 ← Vector.back_add_assign (scores p1) delta;
  let m2 := <[player_name :=
                {| scores := scores1;
                   current_round_scores_ := current_round_scores_ p1 |}]> m1 in
  let '(p2, m3) := operator_at player_name m2 in
  let m4 := <[player_name :=
                {| scores := scores p2;
                   current_round_scores_ :=
                     Vector.push_back (current_round_scores_ p2) delta |}]> m3 in
  Some (set_players m4 s).

(** [Player &GameState::GetOrAddPlayer(name)]: the player referred to and
    the state left behind. *)
Definition GetOrAddPlayer (player_name : string) (s : GameState engine)
  : Player * GameState engine :=
  let '(p, m) := operator_at player_name (players_ s) in
  (p, set_players m s).

(** One call on a manager; the grids handed out so far are collected in
    call order. *)
Definition step (st : GameState engine * list grid_t) (c : call)
  : option (GameState engine * list grid_t) :=
  match c with
  | CallInitRound =>
      let r := InitRound st.1 in Some (r.2, st.2 ++ [r.1])
  | CallGetOrAddPlayer name =>
      Some ((GetOrAddPlayer name st.1).2, st.2)
  | CallUpdatePlayerScore name delta =>
      s' ← UpdatePlayerScore name delta st.1; Some (s', st.2)
  end.

Fixpoint run_from (st : GameState engine * list grid_t) (calls : list call)
  : option (GameState engine * list grid_t) :=
  match calls with
  | [] => Some st
  | c :: rest => st' ← step st c; run_from st' rest
  end.

(** A call sequence on a manager in state [s]: the final state and the
    grids returned, or [None] if a call was undefined. *)
Definition run (s : GameState engine) (calls : list call)
  : option (GameState engine * list grid_t) :=
  run_from (s, []) calls.

(** The shape and the value range of a grid. *)
Definition cell_ok (c : Cell) : Prop := 1 <= num_ c <= 5.
Definition row_ok (row : list Cell) : Prop :=
  length row = WIDTH ∧ Forall cell_ok row.
Definition grid_ok (g : grid_t) : Prop :=
  length g = HEIGHT ∧ Forall row_ok g.

(** The loop invariant of the grid generation: rows [0..i) and the
    first [j] cells of row [i] hold drawn values. *)
Definition filled_upto (i j : nat) (g : grid_t) : Prop :=
  length g = HEIGHT ∧ Forall (λ row, length row = WIDTH) g ∧
  ∀ a b row c, g !! a = Some row → row !! b = Some c →
               (a < i ∨ (a = i ∧ b < j))%nat → cell_ok c.

(** Observations of a call sequence on a new manager: the state it
    leaves, the grids it returned, and a player's entry. *)
Definition final_state (calls : list call) : GameState engine :=
  match run GameState_ctor calls with
  | Some st => st.1
  | None => GameState_ctor
  end.

Definition final_grids (calls : list call) : list grid_t :=
  match run GameState_ctor calls with
  | Some st => st.2
  | None => []
  end.

Definition player_after (calls : list call) (name : string) : option Player :=
  st ← run GameState_ctor calls; players_ st.1 !! name.

(** The engine after [k] draws of [dist(1, 5)], and the value of the draw
    made after [n] earlier ones. *)
Fixpoint engine_after (k : nat) (e : engine) : engine :=
  match k with
  | O => e
  | S k' => engine_after k' (uniform_int_distribution 1 5 e).2
  end.

Definition nth_draw (n : nat) (e : engine) : Z :=
  (uniform_int_distribution 1 5 (engine_after n e)).1.

(** The cell of a grid at row [a], column [b]. *)
Definition cell_at (g : grid_t) (a b : nat) : option Cell :=
  g !! a ≫= (.!! b).

(** The loop invariant of the grid generation, with the draws: the
    engine has made [i * WIDTH + j] draws, and each cell before row [i],
    column [j] holds the draw of its row-major index. *)
Definition drawn_upto (e0 : engine) (i j : nat) (st : grid_t * engine) : Prop :=
  st.2 = engine_after (i * WIDTH + j) e0 ∧
  length st.1 = HEIGHT ∧ Forall (λ row, length row = WIDTH) st.1 ∧
  ∀ a b, (a < HEIGHT)%nat → (b < WIDTH)%nat →
         (a < i ∨ (a = i ∧ b < j))%nat →
         cell_at st.1 a b = Some {| num_ := nth_draw (a * WIDTH + b) e0 |}.

(** Every stored counter and score is a [std::size_t] value. *)
Definition state_in_range (s : GameState engine) : Prop :=
  SizeT.in_range (total_rounds_ s) ∧ SizeT.in_range (current_round_ s) ∧
  ∀ name p, players_ s !! name = Some p → player_in_range p.

End Game.

(** Call sequences used as examples below. *)
Definition SIZE_MAX : Z := 18446744073709551615.

Definition bob_joins_then_round : list call :=
  [CallGetOrAddPlayer "bob"; CallInitRound].

Definition alice_joins_late : list call :=
  [CallInitRound; CallGetOrAddPlayer "alice"; CallInitRound].

Definition bob_scores_10_5 : list call :=
  bob_joins_then_round ++
  [CallUpdatePlayerScore "bob" 10; CallUpdatePlayerScore "bob" 5].

Definition bob_scores_1 : list call :=
  bob_joins_then_round ++ [CallUpdatePlayerScore "bob" 1].

Definition bob_scores_1_5_3 : list call :=
  bob_scores_1 ++
  [CallUpdatePlayerScore "bob" 5; CallUpdatePlayerScore "bob" 3].

Definition bob_scores_near_max : list call :=
  bob_joins_then_round ++ [CallUpdatePlayerScore "bob" (SIZE_MAX - 2)].

Definition bob_scores_near_max_5_3 : list call :=
  bob_scores_near_max ++
  [CallUpdatePlayerScore "bob" 5; CallUpdatePlayerScore "bob" 3].

Definition bob_scores_max_1 : list call :=
  bob_joins_then_round ++
  [CallUpdatePlayerScore "bob" SIZE_MAX; CallUpdatePlayerScore "bob" 1].

(** * Properties *)

(** ** Loops *)

Lemma for_loop_S {S : Type} (n : nat) (body : nat → S → S) (s : S) :
  for_loop (Datatypes.S n) body s = body n (for_loop n body s).
Proof. unfold for_loop. rewrite seq_S, foldl_app. reflexivity. Qed.

(** The invariant rule of a counted loop. *)
Lemma for_loop_invariant {S : Type} (I : nat → S → Prop) (n : nat)
    (body : nat → S → S) (s : S) :
  I O s →
  (∀ i acc, (i < n)%nat → I i acc → I (Datatypes.S i) (body i acc)) →
  I n (for_loop n body s).
Proof.
  intros Hinit Hstep.
  assert (Hgen : ∀ k, (k ≤ n)%nat → I k (for_loop k body s)).
  { induction k as [|k IH]; intros Hk; [exact Hinit|].
    rewrite for_loop_S. apply Hstep; [lia|]. apply IH. lia. }
  apply Hgen. lia.
Qed.

(** ** The grid *)

Section GridProperties.
Context `{R : URBG}.
Hypothesis Hdist : dist_in_range.

Lemma grid_init_filled : filled_upto 0 0 grid_init.
Proof.
  split; [apply length_replicate|]. split.
  - apply Forall_replicate, length_replicate.
  - intros a b row c _ _ [?|[_ ?]]; lia.
Qed.

Lemma fill_cell_filled i j st :
  filled_upto i j st.1 → filled_upto i (S j) (fill_cell i j st).1.
Proof.
  destruct st as [g e]. intros (Hlen & Hrows & Hcells).
  pose proof (Hdist 1 5 e) as Hv. unfold fill_cell, grid_assign.
  destruct (uniform_int_distribution 1 5 e) as [v e']. simpl in *.
  split; [by rewrite length_alter|]. split.
  - apply Forall_alter; [done|]. intros row _ Hrow. by rewrite length_insert.
  - intros a b row c Ha Hb Hab.
    destruct (decide (a = i)) as [->|Hne].
    + rewrite list_lookup_alter_eq in Ha.
      destruct (g !! i) as [row0|] eqn:Hg; simplify_eq/=.
      destruct (decide (b = j)) as [->|Hbj].
      * apply list_lookup_insert_Some in Hb as [(_ & <- & _)|[? _]]; [|done].
        unfold cell_ok. simpl. apply Hv. lia.
      * rewrite list_lookup_insert_ne in Hb by done.
        eapply Hcells; [exact Hg|exact Hb|]. lia.
    + rewrite list_lookup_alter_ne in Ha by done.
      eapply Hcells; [exact Ha|exact Hb|]. lia.
Qed.

Lemma fill_row_filled i st :
  filled_upto i 0 st.1 → filled_upto (S i) 0 (fill_row i st).1.
Proof.
  intros Hst. unfold fill_row.
  pose proof (for_loop_invariant (λ j acc, filled_upto i j acc.1) WIDTH
                (fill_cell i) st Hst) as Hloop.
  destruct Hloop as (Hlen & Hrows & Hcells).
  { intros j acc _. apply fill_cell_filled. }
  split; [done|]. split; [done|].
  intros a b row c Ha Hb Hab. eapply Hcells; [exact Ha|exact Hb|].
  assert (b < WIDTH)%nat.
  { rewrite Forall_lookup in Hrows. rewrite <-(Hrows _ _ Ha).
    eapply lookup_lt_Some, Hb. }
  lia.
Qed.

Lemma fill_grid_ok e : grid_ok (fill_grid e).1.
Proof.
  unfold fill_grid.
  destruct (for_loop_invariant (λ i acc, filled_upto i 0 acc.1) HEIGHT
              fill_row (grid_init, e) grid_init_filled) as (Hlen & Hrows & Hcells).
  { intros i acc _. apply fill_row_filled. }
  split; [done|]. apply Forall_lookup. intros a row Ha. split.
  - rewrite Forall_lookup in Hrows. by eapply Hrows.
  - apply Forall_lookup. intros b c Hb. eapply Hcells; [exact Ha|exact Hb|].
    left. rewrite <-Hlen. eapply lookup_lt_Some, Ha.
Qed.

End GridProperties.

(** The grid is filled in row-major order, one draw per cell. *)

Section GridDraws.
Context `{R : URBG}.

Lemma engine_after_S_r k e :
  engine_after (S k) e = (uniform_int_distribution 1 5 (engine_after k e)).2.
Proof. revert e. induction k as [|k IH]; intros e; [done|]. simpl. apply IH. Qed.

Lemma engine_after_add a b e :
  engine_after (a + b) e = engine_after b (engine_after a e).
Proof. revert e. induction a as [|a IH]; intros e; [done|]. simpl. apply IH. Qed.

Lemma grid_init_drawn e0 : drawn_upto e0 0 0 (grid_init, e0).
Proof.
  split; [done|]. split; [apply length_replicate|]. split.
  - apply Forall_replicate, length_replicate.
  - intros a b _ _ [?|[_ ?]]; lia.
Qed.

Lemma fill_cell_drawn e0 i j st :
  (i < HEIGHT)%nat → (j < WIDTH)%nat →
  drawn_upto e0 i j st → drawn_upto e0 i (S j) (fill_cell i j st).
Proof.
  intros Hi Hj. destruct st as [g e]. intros (He & Hlen & Hrows & Hcells).
  simpl in He, Hlen, Hrows, Hcells. subst e. unfold fill_cell.
  destruct (uniform_int_distribution 1 5 (engine_after (i * WIDTH + j) e0))
    as [v e'] eqn:Hd.
  assert (Hv : v = nth_draw (i * WIDTH + j) e0) by (unfold nth_draw; by rewrite Hd).
  assert (He' : e' = engine_after (i * WIDTH + S j) e0).
  { rewrite Nat.add_succ_r, engine_after_S_r. by rewrite Hd. }
  destruct (lookup_lt_is_Some_2 g i) as [row Hrow]; [lia|].
  assert (Hrowlen : length row = WIDTH)
    by (rewrite Forall_lookup in Hrows; by eapply Hrows).
  split; [exact He'|]. unfold grid_assign. simpl.
  split; [by rewrite length_alter|]. split.
  - apply Forall_alter; [done|]. intros row' _ Hrow'. by rewrite length_insert.
  - intros a b Ha Hb Hab. unfold cell_at.
    destruct (decide (a = i)) as [->|Hne].
    + rewrite list_lookup_alter_eq, Hrow. simpl.
      destruct (decide (b = j)) as [->|Hbj].
      * rewrite list_lookup_insert_eq by lia. by rewrite Hv.
      * rewrite list_lookup_insert_ne by done.
        specialize (Hcells i b Ha Hb). unfold cell_at in Hcells.
        rewrite Hrow in Hcells. apply Hcells. lia.
    + rewrite list_lookup_alter_ne by done. apply (Hcells a b Ha Hb). lia.
Qed.

Lemma fill_row_drawn e0 i st :
  (i < HEIGHT)%nat →
  drawn_upto e0 i 0 st → drawn_upto e0 (S i) 0 (fill_row i st).
Proof.
  intros Hi Hst. unfold fill_row.
  destruct (for_loop_invariant (λ j acc, drawn_upto e0 i j acc) WIDTH
              (fill_cell i) st Hst) as (He & Hlen & Hrows & Hcells).
  { intros j acc Hj. by apply fill_cell_drawn. }
  split; [|split; [done|split; [done|]]].
  - rewrite He. f_equal. lia.
  - intros a b Ha Hb Hab. apply (Hcells a b Ha Hb). lia.
Qed.

Lemma fill_grid_drawn e : drawn_upto e HEIGHT 0 (fill_grid e).
Proof.
  unfold fill_grid.
  apply (for_loop_invariant (λ i acc, drawn_upto e i 0 acc) HEIGHT fill_row).
  - apply grid_init_drawn.
  - intros i acc Hi. by apply fill_row_drawn.
Qed.

End GridDraws.

(** From here on the grid loops are used through [fill_grid_ok] only. *)
Opaque fill_grid.

(** ** Vectors *)

Lemma back_add_assign_snoc l x d :
  Vector.back_add_assign (l ++ [x]) d = Some (l ++ [SizeT.add x d]).
Proof.
  unfold Vector.back_add_assign, Vector.back. rewrite last_snoc. simpl.
  rewrite length_app, Nat.add_1_r. simpl.
  rewrite (insert_app_r_alt l [x]) by lia. by rewrite Nat.sub_diag.
Qed.

Lemma sum_snoc v x : Vector.sum (v ++ [x]) = Vector.sum v + x.
Proof. unfold Vector.sum. induction v as [|y v IH]; simpl; lia. Qed.

Lemma wrap_add_l a b : SizeT.add (SizeT.wrap a) b = SizeT.wrap (a + b).
Proof. unfold SizeT.add, SizeT.wrap. by rewrite Zplus_mod_idemp_l. Qed.

Lemma wrap_incr_add a b : SizeT.wrap (SizeT.add a 1 + b) = SizeT.wrap (a + 1 + b).
Proof. unfold SizeT.add, SizeT.wrap. by rewrite Zplus_mod_idemp_l. Qed.

Lemma add_add x a b : SizeT.add (SizeT.add x a) b = SizeT.wrap (x + (a + b)).
Proof. unfold SizeT.add at 2. rewrite wrap_add_l. f_equal. lia. Qed.

Lemma wrap_small z : SizeT.in_range z → SizeT.wrap z = z.
Proof. intros Hz. apply Z.mod_small. exact Hz. Qed.

(** ** The player map *)

Lemma operator_at_Some name m p :
  m !! name = Some p → operator_at name m = (p, m).
Proof. intros Hp. unfold operator_at. by rewrite Hp. Qed.

Lemma operator_at_None name m :
  m !! name = None →
  operator_at name m = (Player_default, <[name := Player_default]> m).
Proof. intros Hp. unfold operator_at. by rewrite Hp. Qed.

Lemma foldr_alter_lookup (body : Player → Player) (l : list (string * Player))
    (m : gmap string Player) (k : string) :
  NoDup l.*1 →
  foldr (λ kp acc, alter body kp.1 acc) m l !! k =
    if decide (k ∈ l.*1) then body <$> m !! k else m !! k.
Proof.
  induction l as [|[k0 p0] l IH]; intros Hnd.
  - case_decide as Hin; [by apply elem_of_nil in Hin|done].
  - rewrite fmap_cons in Hnd |- *. cbn [foldr fst].
    apply NoDup_cons in Hnd as [Hk0 Hnd].
    destruct (decide (k = k0)) as [->|Hne].
    + rewrite lookup_alter_eq, IH by done.
      rewrite (decide_False _ _ Hk0).
      rewrite decide_True; [done|]. apply elem_of_cons. by left.
    + rewrite lookup_alter_ne, IH by done.
      destruct (decide (k ∈ l.*1)) as [Hin|Hin].
      * rewrite decide_True; [done|]. apply elem_of_cons. by right.
      * rewrite decide_False; [done|]. by intros [?|?]%elem_of_cons.
Qed.

(** The player loop applies its body to every entry: it is the point-wise
    map. *)
Lemma for_each_player_lookup body (m : gmap string Player) k :
  for_each_player body m !! k = body <$> m !! k.
Proof.
  unfold for_each_player.
  rewrite foldr_alter_lookup by apply NoDup_fst_map_to_list.
  case_decide as Hk; [done|].
  destruct (m !! k) as [p|] eqn:Hp; [|done].
  exfalso. apply Hk. apply list_elem_of_fmap. exists (k, p).
  split; [done|]. by apply elem_of_map_to_list.
Qed.

Section OperationProperties.
Context `{R : URBG}.

Lemma InitRound_grid s : (InitRound s).1 = (fill_grid (rng_ s)).1.
Proof. unfold InitRound. reflexivity. Qed.

Lemma InitRound_players s k :
  players_ (InitRound s).2 !! k = start_round <$> players_ s !! k.
Proof. unfold InitRound. simpl. apply for_each_player_lookup. Qed.

Lemma UpdatePlayerScore_Some name delta s p l x :
  players_ s !! name = Some p → scores p = l ++ [x] →
  UpdatePlayerScore name delta s =
    Some (set_players
            (<[name := {| scores := l ++ [SizeT.add x delta];
                          current_round_scores_ :=
                            current_round_scores_ p ++ [delta] |}]> (players_ s)) s).
Proof.
  intros Hp Hsc. unfold UpdatePlayerScore.
  rewrite (operator_at_Some _ _ _ Hp), Hsc, back_add_assign_snoc. simpl.
  erewrite operator_at_Some by apply lookup_insert_eq. simpl.
  by rewrite insert_insert_eq.
Qed.

Lemma UpdatePlayerScore_absent name delta s :
  players_ s !! name = None → UpdatePlayerScore name delta s = None.
Proof.
  intros Hp. unfold UpdatePlayerScore. by rewrite (operator_at_None _ _ Hp).
Qed.

Lemma UpdatePlayerScore_empty name delta s p :
  players_ s !! name = Some p → scores p = [] →
  UpdatePlayerScore name delta s = None.
Proof.
  intros Hp Hsc. unfold UpdatePlayerScore.
  by rewrite (operator_at_Some _ _ _ Hp), Hsc.
Qed.

(** Inversion of a defined [UpdatePlayerScore]. *)
Lemma UpdatePlayerScore_inv name delta s s' :
  UpdatePlayerScore name delta s = Some s' →
  ∃ p l x, players_ s !! name = Some p ∧ scores p = l ++ [x] ∧
    s' = set_players
           (<[name := {| scores := l ++ [SizeT.add x delta];
                         current_round_scores_ :=
                           current_round_scores_ p ++ [delta] |}]> (players_ s)) s.
Proof.
  intros Hup. destruct (players_ s !! name) as [p|] eqn:Hp.
  - destruct (scores p) as [|x l] eqn:Hsc using rev_ind.
    + by rewrite (UpdatePlayerScore_empty _ _ _ _ Hp Hsc) in Hup.
    + rewrite (UpdatePlayerScore_Some _ _ _ _ _ _ Hp Hsc) in Hup.
      exists p, l, x. by simplify_eq.
  - by rewrite UpdatePlayerScore_absent in Hup.
Qed.

Lemma GetOrAddPlayer_players name s k :
  players_ (GetOrAddPlayer name s).2 !! k =
    if decide (k = name) then Some (default Player_default (players_ s !! name))
    else players_ s !! k.
Proof.
  unfold GetOrAddPlayer, operator_at.
  destruct (players_ s !! name) as [p|] eqn:Hp; simpl; case_decide; subst; try done.
  - by rewrite lookup_insert_eq.
  - by rewrite lookup_insert_ne.
Qed.

Lemma InitRound_rng s : rng_ (InitRound s).2 = (fill_grid (rng_ s)).2.
Proof. unfold InitRound. reflexivity. Qed.

Lemma InitRound_total_rounds s : total_rounds_ (InitRound s).2 = total_rounds_ s.
Proof. unfold InitRound. reflexivity. Qed.

Lemma InitRound_current_round s :
  current_round_ (InitRound s).2 = SizeT.incr (current_round_ s).
Proof. unfold InitRound. reflexivity. Qed.

(** The three cases of a defined step. *)
Lemma step_inv st c st' :
  step st c = Some st' →
  match c with
  | CallInitRound =>
      st' = ((InitRound st.1).2, st.2 ++ [(InitRound st.1).1])
  | CallGetOrAddPlayer name =>
      st' = ((GetOrAddPlayer name st.1).2, st.2)
  | CallUpdatePlayerScore name delta =>
      ∃ s', UpdatePlayerScore name delta st.1 = Some s' ∧ st' = (s', st.2)
  end.
Proof.
  destruct c as [|name|name delta]; cbn [step]; intros Hst.
  - by injection Hst as <-.
  - by injection Hst as <-.
  - destruct (UpdatePlayerScore name delta st.1) as [s'|]; [|done].
    injection Hst as <-. by exists s'.
Qed.

End OperationProperties.

(** ** Runs *)

Lemma count_rounds_cons c calls :
  count_rounds (c :: calls) =
    ((if is_init_round c then 1 else 0) + count_rounds calls)%nat.
Proof.
  unfold count_rounds. rewrite filter_cons.
  destruct (decide (is_init_round c = true)) as [Hc|Hc]; destruct c; simpl in *; done.
Qed.

Section RunProperties.
Context `{R : URBG}.

Lemma set_players_id (s : GameState engine) : set_players (players_ s) s = s.
Proof. by destruct s. Qed.

(** The invariant rule of a run: what every admissible call preserves
    holds at the end. *)
Lemma run_from_invariant (I : GameState engine → Prop) (admissible : call → Prop) :
  (∀ c st st', admissible c → I st.1 → step st c = Some st' → I st'.1) →
  ∀ calls st st',
    Forall admissible calls → I st.1 → run_from st calls = Some st' → I st'.1.
Proof.
  intros Hstep. induction calls as [|c calls IH]; intros st st' Hadm Hst Hrun.
  - simpl in Hrun. by simplify_eq.
  - apply Forall_cons in Hadm as [Hc Hadm]. simpl in Hrun.
    destruct (step st c) as [st1|] eqn:Hst1; [|done]. simpl in Hrun.
    eapply IH; [exact Hadm| |exact Hrun]. eapply Hstep; eauto.
Qed.

Lemma run_from_invariant_all (I : GameState engine → Prop) :
  (∀ c st st', I st.1 → step st c = Some st' → I st'.1) →
  ∀ calls st st', I st.1 → run_from st calls = Some st' → I st'.1.
Proof.
  intros Hstep calls st st' Hst Hrun.
  eapply (run_from_invariant I (λ _, True) (λ c a b _, Hstep c a b) calls);
    [by apply Forall_true|exact Hst|exact Hrun].
Qed.

Lemma run_from_cons_InitRound s gs calls :
  run_from (s, gs) (CallInitRound :: calls) =
    run_from ((InitRound s).2, gs ++ [(InitRound s).1]) calls.
Proof. reflexivity. Qed.

Lemma run_from_cons_GetOrAddPlayer s gs name calls :
  run_from (s, gs) (CallGetOrAddPlayer name :: calls) =
    run_from ((GetOrAddPlayer name s).2, gs) calls.
Proof. reflexivity. Qed.

Lemma run_from_cons_UpdatePlayerScore s gs name delta calls :
  run_from (s, gs) (CallUpdatePlayerScore name delta :: calls) =
    UpdatePlayerScore name delta s ≫= λ s', run_from (s', gs) calls.
Proof.
  simpl. by destruct (UpdatePlayerScore name delta s).
Qed.

(** [InitRound] is defined in every state, so a sequence of rounds runs
    to its end and hands out one grid per call. *)
Lemma run_from_rounds n :
  ∀ s gs0, ∃ s' gs,
    run_from (s, gs0) (replicate n CallInitRound) = Some (s', gs0 ++ gs) ∧
    length gs = n ∧
    (dist_in_range → Forall grid_ok gs).
Proof.
  induction n as [|n IH]; intros s gs0.
  - exists s, []. simpl. by rewrite app_nil_r.
  - destruct (IH (InitRound s).2 (gs0 ++ [(InitRound s).1])) as (s' & gs & Hrun & Hlen & Hok).
    exists s', ((InitRound s).1 :: gs).
    rewrite replicate_S, run_from_cons_InitRound. split; [|split].
    + rewrite Hrun. by rewrite <-app_assoc.
    + simpl. by rewrite Hlen.
    + intros Hdist. apply Forall_cons. split; [|by apply Hok].
      rewrite InitRound_grid. by apply fill_grid_ok.
Qed.

Lemma step_total_rounds c st st' :
  step st c = Some st' → total_rounds_ st'.1 = total_rounds_ st.1.
Proof.
  intros Hst. apply step_inv in Hst. destruct c as [|name|name delta].
  - subst st'. apply InitRound_total_rounds.
  - subst st'. cbn [fst]. unfold GetOrAddPlayer.
    by destruct (operator_at name (players_ st.1)).
  - destruct Hst as (s' & Hup & ->).
    by apply UpdatePlayerScore_inv in Hup as (p & l & x & _ & _ & ->).
Qed.

(** Before the first round every known player has an empty [scores]. *)
Lemma step_no_round_scores_empty c st st' :
  is_init_round c = false →
  (∀ k p, players_ st.1 !! k = Some p → scores p = []) →
  step st c = Some st' →
  ∀ k p, players_ st'.1 !! k = Some p → scores p = [].
Proof.
  intros Hc Hst Hstep k p Hp. apply step_inv in Hstep.
  destruct c as [|name|name delta]; [done| |].
  - subst st'. cbn [fst] in Hp.
    rewrite GetOrAddPlayer_players in Hp. case_decide; [|by eapply Hst].
    injection Hp as <-. destruct (players_ st.1 !! name) as [q|] eqn:Hq; simpl; [|done].
    by eapply Hst.
  - destruct Hstep as (s' & Hup & ->).
    apply UpdatePlayerScore_inv in Hup as (q & l & x & Hq & Hsc & _).
    apply Hst in Hq. rewrite Hq in Hsc. by destruct l.
Qed.

End RunProperties.

(** ** Invariants of the score sequences *)

Section ScoreInvariants.
Context `{R : URBG}.

Lemma start_round_round_total p : back_is_round_total (start_round p).
Proof.
  intros _. unfold start_round, Vector.back, Vector.push_back. simpl.
  by rewrite last_snoc.
Qed.

Lemma step_round_total c st st' :
  (∀ k p, players_ st.1 !! k = Some p → back_is_round_total p) →
  step st c = Some st' →
  ∀ k p, players_ st'.1 !! k = Some p → back_is_round_total p.
Proof.
  intros Hst Hstep k p Hp. apply step_inv in Hstep.
  destruct c as [|name|name delta].
  - subst st'. cbn [fst] in Hp. rewrite InitRound_players in Hp.
    destruct (players_ st.1 !! k) as [q|]; [|done].
    injection Hp as <-. apply start_round_round_total.
  - subst st'. cbn [fst] in Hp.
    rewrite GetOrAddPlayer_players in Hp. case_decide; [|by eapply Hst].
    injection Hp as <-. destruct (players_ st.1 !! name) as [q|] eqn:Hq; simpl.
    + by eapply Hst.
    + by intros ?.
  - destruct Hstep as (s' & Hup & ->).
    apply UpdatePlayerScore_inv in Hup as (q & l & x & Hq & Hsc & ->).
    simpl in Hp.
    destruct (decide (k = name)) as [->|Hne].
    + rewrite lookup_insert_eq in Hp. simplify_eq. intros _. simpl.
      unfold Vector.back. rewrite last_snoc. f_equal.
      pose proof (Hst _ _ Hq) as Hback. unfold back_is_round_total, Vector.back in Hback.
      rewrite Hsc, last_snoc in Hback.
      assert (Hx : x = SizeT.wrap (Vector.sum (current_round_scores_ q))).
      { assert (Hne : l ++ [x] ≠ []) by (by destruct l). specialize (Hback Hne). by simplify_eq. }
      rewrite Hx, wrap_add_l. unfold Vector.push_back. by rewrite sum_snoc.
    + rewrite lookup_insert_ne in Hp by done. by eapply Hst.
Qed.

Lemma step_deltas_nonneg c st st' :
  call_args_in_range c →
  (∀ k p, players_ st.1 !! k = Some p → deltas_nonneg p) →
  step st c = Some st' →
  ∀ k p, players_ st'.1 !! k = Some p → deltas_nonneg p.
Proof.
  intros Hc Hst Hstep k p Hp. apply step_inv in Hstep.
  destruct c as [|name|name delta].
  - subst st'. cbn [fst] in Hp. rewrite InitRound_players in Hp.
    destruct (players_ st.1 !! k) as [q|]; [|done].
    injection Hp as <-. apply Forall_nil_2.
  - subst st'. cbn [fst] in Hp.
    rewrite GetOrAddPlayer_players in Hp. case_decide; [|by eapply Hst].
    injection Hp as <-. destruct (players_ st.1 !! name) as [q|] eqn:Hq; simpl.
    + by eapply Hst.
    + apply Forall_nil_2.
  - destruct Hstep as (s' & Hup & ->).
    apply UpdatePlayerScore_inv in Hup as (q & l & x & Hq & Hsc & ->).
    simpl in Hp.
    destruct (decide (k = name)) as [->|Hne].
    + rewrite lookup_insert_eq in Hp. simplify_eq.
      unfold deltas_nonneg. simpl. apply Forall_app. split; [by eapply Hst|].
      apply Forall_singleton. apply Hc.
    + rewrite lookup_insert_ne in Hp by done. by eapply Hst.
Qed.

Lemma sum_nonneg v : Forall (λ d, 0 <= d) v → 0 <= Vector.sum v.
Proof. unfold Vector.sum. induction 1; simpl; lia. Qed.

(** The length of [scores] along a run: one more per round for a player
    already known, the rounds after the first reference for the others. *)
Lemma run_from_scores_length calls :
  ∀ st st' name,
    run_from st calls = Some st' →
    length ∘ scores <$> players_ st'.1 !! name =
      match players_ st.1 !! name with
      | Some p => Some (length (scores p) + count_rounds calls)%nat
      | None => rounds_since_first_reference name calls
      end.
Proof.
  induction calls as [|c calls IH]; intros [s gs] st' name Hrun.
  - simpl in Hrun. simplify_eq. simpl.
    destruct (players_ s !! name) as [p|]; simpl; [|done].
    unfold count_rounds. simpl. f_equal. lia.
  - rewrite count_rounds_cons. destruct c as [|x|x delta].
    + rewrite run_from_cons_InitRound in Hrun.
      rewrite (IH _ _ name Hrun). cbn [fst]. rewrite InitRound_players. simpl.
      destruct (players_ s !! name) as [p|]; simpl; [|done].
      unfold Vector.push_back. rewrite length_app. simpl. f_equal. lia.
    + rewrite run_from_cons_GetOrAddPlayer in Hrun.
      rewrite (IH _ _ name Hrun). cbn [fst]. rewrite GetOrAddPlayer_players. simpl.
      case_decide as Hx.
      * subst x. rewrite bool_decide_eq_true_2 by done.
        destruct (players_ s !! name) as [p|]; simpl; done.
      * rewrite bool_decide_eq_false_2 by done.
        destruct (players_ s !! name) as [p|]; simpl; done.
    + rewrite run_from_cons_UpdatePlayerScore in Hrun.
      destruct (UpdatePlayerScore x delta s) as [s'|] eqn:Hup; [|done].
      simpl in Hrun. rewrite (IH _ _ name Hrun). cbn [fst].
      apply UpdatePlayerScore_inv in Hup as (q & l & y & Hq & Hsc & ->). simpl.
      destruct (decide (x = name)) as [->|Hne].
      * rewrite lookup_insert_eq, Hq. simpl. rewrite Hsc, !length_app. done.
      * rewrite lookup_insert_ne by done. rewrite bool_decide_eq_false_2 by done.
        done.
Qed.

Lemma step_current_round c st st' :
  step st c = Some st' →
  current_round_ st'.1 =
    if is_init_round c then SizeT.incr (current_round_ st.1)
    else current_round_ st.1.
Proof.
  intros Hst. apply step_inv in Hst. destruct c as [|name|name delta].
  - subst st'. apply InitRound_current_round.
  - subst st'. cbn [fst is_init_round]. unfold GetOrAddPlayer.
    by destruct (operator_at name (players_ st.1)).
  - destruct Hst as (s' & Hup & ->).
    by apply UpdatePlayerScore_inv in Hup as (p & l & x & _ & _ & ->).
Qed.

(** The round counter along a run. *)
Lemma run_from_current_round calls :
  ∀ st st',
    SizeT.in_range (current_round_ st.1) →
    run_from st calls = Some st' →
    current_round_ st'.1 =
      SizeT.wrap (current_round_ st.1 + Z.of_nat (count_rounds calls)).
Proof.
  induction calls as [|c calls IH]; intros st st' Hr Hrun.
  - simpl in Hrun. injection Hrun as <-. unfold count_rounds. simpl.
    rewrite Z.add_0_r. symmetry. by apply wrap_small.
  - cbn [run_from] in Hrun.
    destruct (step st c) as [st1|] eqn:Hst; [|done]. cbn in Hrun.
    pose proof (step_current_round _ _ _ Hst) as Hcur.
    rewrite count_rounds_cons. destruct (is_init_round c).
    + rewrite (IH st1 st'); [| |exact Hrun]; rewrite Hcur.
      * unfold SizeT.incr. rewrite wrap_incr_add. f_equal. lia.
      * apply Z.mod_pos_bound. done.
    + rewrite (IH st1 st'); [| |exact Hrun]; rewrite Hcur; [|done]. f_equal.
Qed.

Lemma run_from_grids_length calls :
  ∀ st st',
    run_from st calls = Some st' →
    length st'.2 = (length st.2 + count_rounds calls)%nat.
Proof.
  induction calls as [|c calls IH]; intros st st' Hrun.
  - simpl in Hrun. injection Hrun as <-. unfold count_rounds. simpl. lia.
  - cbn [run_from] in Hrun.
    destruct (step st c) as [st1|] eqn:Hst; [|done]. cbn in Hrun.
    rewrite (IH _ _ Hrun), count_rounds_cons. apply step_inv in Hst.
    destruct c as [|x|x delta].
    + subst st1. cbn [snd is_init_round]. rewrite length_app. simpl. lia.
    + subst st1. cbn [snd is_init_round]. lia.
    + destruct Hst as (s' & _ & ->). cbn [snd is_init_round]. lia.
Qed.

(** The grids handed out depend on the engine alone: two managers whose
    engines agree stay in step, whatever their players and counters. *)
Lemma run_from_grids_determined calls :
  ∀ st1 st2 st1' st2',
    rng_ st1.1 = rng_ st2.1 → st1.2 = st2.2 →
    run_from st1 calls = Some st1' → run_from st2 calls = Some st2' →
    rng_ st1'.1 = rng_ st2'.1 ∧ st1'.2 = st2'.2.
Proof.
  induction calls as [|c calls IH]; intros [s1 gs1] [s2 gs2] st1' st2' Hrng Hgs H1 H2.
  - simpl in *. by simplify_eq.
  - simpl in Hrng, Hgs. subst gs2. destruct c as [|x|x delta].
    + rewrite run_from_cons_InitRound in H1, H2.
      eapply IH; [| |exact H1|exact H2]; cbn [fst snd].
      * rewrite !InitRound_rng. by rewrite Hrng.
      * rewrite !InitRound_grid. by rewrite Hrng.
    + rewrite run_from_cons_GetOrAddPlayer in H1, H2.
      eapply IH; [| |exact H1|exact H2]; cbn [fst snd]; [|done].
      unfold GetOrAddPlayer.
      by destruct (operator_at x (players_ s1)), (operator_at x (players_ s2)).
    + rewrite run_from_cons_UpdatePlayerScore in H1, H2.
      destruct (UpdatePlayerScore x delta s1) as [s1'|] eqn:Hup1; [|done].
      destruct (UpdatePlayerScore x delta s2) as [s2'|] eqn:Hup2; [|done].
      apply UpdatePlayerScore_inv in Hup1 as (? & ? & ? & _ & _ & ->).
      apply UpdatePlayerScore_inv in Hup2 as (? & ? & ? & _ & _ & ->).
      eapply IH; [| |exact H1|exact H2]; done.
Qed.

End ScoreInvariants.

(** ** The random source: [Mt19937] meets the contract *)

Lemma mt19937_dist_in_range : @dist_in_range mt19937.
Proof.
  intros a b e Hab. unfold uniform_int_distribution, mt19937, Mt19937.draw.
  cbn [fst]. pose proof (Z.mod_pos_bound (Mt19937.next e).1 (b - a + 1)). lia.
Qed.

(** The check value of [rand.predef]: the 10000th output of a
    default-seeded [std::mt19937] is 4123659995; and the first output of
    the engine the constructor seeds with 0. *)
Lemma mt19937_check_values :
  (Mt19937.next (Mt19937.discard (Z.to_nat 9999) (Mt19937.seed 5489))).1 =
    4123659995 ∧
  (Mt19937.next (Mt19937.seed 0)).1 = 2357136044.
Proof. split; vm_compute; reflexivity. Qed.

(** * The specification of the manager *)

Section Specification.
Context `{R : URBG}.

(** C1. Whatever the state, and for every number of successive
    [InitRound] calls, each call returns a grid, and every grid returned
    has exactly [HEIGHT] = 10 rows of [WIDTH] = 17 cells whose values
    lie in [1, 5]; the one assumption is the range contract of
    [std::uniform_int_distribution]. *)
Theorem InitRound_grid_shape_and_range :
  dist_in_range →
  (HEIGHT = 10%nat ∧ WIDTH = 17%nat) ∧
  (∀ s : GameState engine, grid_ok (InitRound s).1) ∧
  (∀ (s : GameState engine) (n : nat), ∃ s' gs,
      run s (replicate n CallInitRound) = Some (s', gs) ∧
      length gs = n ∧ Forall grid_ok gs).
Proof.
  intros Hdist. split; [done|]. split.
  - intros s. rewrite InitRound_grid. by apply fill_grid_ok.
  - intros s n. destruct (run_from_rounds n s []) as (s' & gs & Hrun & Hlen & Hok).
    exists s', gs. unfold run. rewrite Hrun. auto.
Qed.

(** C2. [InitRound] increments [current_round_] by one (the [++] of
    [std::size_t]: the successor, and 0 after the largest value), and
    every player known at the call gets exactly one entry 0 appended to
    [scores] and an empty [current_round_scores_]; no player is added
    or removed.  On a manager driven from its construction the counter is
    the number of [InitRound] calls made, as long as that is below 2^64. *)
Theorem InitRound_round_counter_and_players (s : GameState engine) :
  current_round_ (InitRound s).2 = SizeT.wrap (current_round_ s + 1) ∧
  (SizeT.in_range (current_round_ s + 1) →
   current_round_ (InitRound s).2 = current_round_ s + 1) ∧
  (∀ name,
     players_ (InitRound s).2 !! name =
       (λ p, {| scores := scores p ++ [0]; current_round_scores_ := [] |})
         <$> players_ s !! name) ∧
  (∀ calls s' gs,
     run GameState_ctor calls = Some (s', gs) →
     Z.of_nat (count_rounds calls) < SizeT.modulus →
     current_round_ s' = Z.of_nat (count_rounds calls)).
Proof.
  rewrite InitRound_current_round. split; [done|]. split; [|split].
  - intros Hr. by apply wrap_small.
  - intros name. by rewrite InitRound_players.
  - intros calls s' gs Hrun Hlt.
    pose proof (run_from_current_round calls (GameState_ctor, []) (s', gs))
      as Hcur.
    cbn [fst GameState_ctor current_round_] in Hcur.
    rewrite Hcur; [|done|exact Hrun].
    apply wrap_small. split; [lia|exact Hlt].
Qed.

(** C3. [UpdatePlayerScore] is defined exactly when the named player is
    known and its [scores] is not empty; otherwise the call reaches
    [back()] on an empty vector.  In particular, in every state reached
    from the constructor before any round was started, every
    [UpdatePlayerScore] call reaches it. *)
Theorem UpdatePlayerScore_defined_iff_scores_nonempty :
  (∀ (s : GameState engine) name delta,
     is_Some (UpdatePlayerScore name delta s) ↔
     ∃ p, players_ s !! name = Some p ∧ scores p ≠ []) ∧
  (∀ (s : GameState engine) name delta p,
     players_ s !! name = Some p → scores p = [] →
     Vector.back (scores p) = None ∧ UpdatePlayerScore name delta s = None) ∧
  (∀ calls s gs name delta,
     count_rounds calls = 0%nat →
     run GameState_ctor calls = Some (s, gs) →
     UpdatePlayerScore name delta s = None).
Proof.
  split; [|split].
  - intros s name delta. split.
    + intros [s' Hup].
      apply UpdatePlayerScore_inv in Hup as (p & l & x & Hp & Hsc & _).
      exists p. split; [done|]. rewrite Hsc. by destruct l.
    + intros (p & Hp & Hsc).
      destruct (scores p) as [|x l _] eqn:Hl using rev_ind; [done|].
      erewrite UpdatePlayerScore_Some by done. by eexists.
  - intros s name delta p Hp Hsc. split; [by rewrite Hsc|].
    by eapply UpdatePlayerScore_empty.
  - intros calls s gs name delta Hcount Hrun.
    assert (Hempty : ∀ k p, players_ s !! k = Some p → scores p = []).
    { apply (run_from_invariant
               (λ s, ∀ k p, players_ s !! k = Some p → scores p = [])
               (λ c, is_init_round c = false)
               (λ c st st' Hc Hst Hstep,
                  step_no_round_scores_empty c st st' Hc Hst Hstep)
               calls (GameState_ctor, []) (s, gs)); [|done|exact Hrun].
      clear Hrun. induction calls as [|c calls IH]; [done|].
      rewrite count_rounds_cons in Hcount. apply Forall_cons.
      destruct (is_init_round c); [done|]. split; [done|]. by apply IH. }
    destruct (players_ s !! name) as [p|] eqn:Hp.
    + eapply UpdatePlayerScore_empty; [done|]. by eapply Hempty.
    + by apply UpdatePlayerScore_absent.
Qed.

(** C4. On a freshly constructed manager [UpdatePlayerScore("bob", 5)]
    creates the player through [players_["bob"]] with both sequences
    empty and then takes [back()] of that empty [scores]: the call is
    undefined, before the first round and during a round alike. *)
Theorem UpdatePlayerScore_new_player_undefined :
  operator_at "bob" (players_ GameState_ctor) =
    (Player_default, {[ "bob" := Player_default ]}) ∧
  Vector.back (scores Player_default) = None ∧
  UpdatePlayerScore "bob" 5 GameState_ctor = None ∧
  UpdatePlayerScore "bob" 5 (InitRound GameState_ctor).2 = None.
Proof.
  split; [|split; [|split]].
  - unfold operator_at. simpl. rewrite lookup_empty. by rewrite insert_empty.
  - done.
  - by apply UpdatePlayerScore_absent.
  - apply UpdatePlayerScore_absent. rewrite InitRound_players.
    cbn [GameState_ctor players_]. by rewrite lookup_empty.
Qed.

(** C5, amended.  For a player whose [scores] is not empty,
    [UpdatePlayerScore(name, delta)] replaces the last entry [x] of
    [scores] by [x + delta] modulo 2^64 and appends [delta] to
    [current_round_scores_], leaving everything else as it was.  Two
    successive calls with 5 then 3 append [5; 3] to the deltas and leave
    [(x + 8) mod 2^64] as last entry; when the deltas were empty before
    the two calls and [x + 8] fits [std::size_t], the deltas are exactly
    [5; 3] and the last entry is [x + 8]. *)
Theorem UpdatePlayerScore_adds_delta_and_appends (s : GameState engine) name p :
  players_ s !! name = Some p → scores p ≠ [] →
  ∃ l x, scores p = l ++ [x] ∧
    (∀ delta,
       UpdatePlayerScore name delta s =
         Some (set_players
                 (<[name := {| scores := l ++ [SizeT.wrap (x + delta)];
                               current_round_scores_ :=
                                 current_round_scores_ p ++ [delta] |}]>
                    (players_ s)) s)) ∧
    (UpdatePlayerScore name 5 s ≫= UpdatePlayerScore name 3 =
       Some (set_players
               (<[name := {| scores := l ++ [SizeT.wrap (x + 8)];
                             current_round_scores_ :=
                               current_round_scores_ p ++ [5; 3] |}]>
                  (players_ s)) s)) ∧
    (current_round_scores_ p = [] → SizeT.in_range (x + 8) →
     UpdatePlayerScore name 5 s ≫= UpdatePlayerScore name 3 =
       Some (set_players
               (<[name := {| scores := l ++ [x + 8];
                             current_round_scores_ := [5; 3] |}]>
                  (players_ s)) s)).
Proof.
  intros Hp Hne.
  destruct (scores p) as [|x l _] eqn:Hsc using rev_ind; [done|].
  exists l, x. split; [done|].
  assert (Htwo : UpdatePlayerScore name 5 s ≫= UpdatePlayerScore name 3 =
       Some (set_players
               (<[name := {| scores := l ++ [SizeT.wrap (x + 8)];
                             current_round_scores_ :=
                               current_round_scores_ p ++ [5; 3] |}]>
                  (players_ s)) s)).
  { rewrite (UpdatePlayerScore_Some name 5 s p l x Hp Hsc). cbn [mbind option_bind].
    erewrite UpdatePlayerScore_Some;
      [|cbn [set_players players_]; apply lookup_insert_eq|reflexivity].
    cbn [set_players players_ total_rounds_ current_round_ rng_ scores
         current_round_scores_].
    rewrite insert_insert_eq, add_add, <-app_assoc. reflexivity. }
  split; [|split].
  - intros delta. by apply UpdatePlayerScore_Some.
  - exact Htwo.
  - intros Hcur Hr. rewrite Htwo, Hcur. by rewrite (wrap_small _ Hr).
Qed.

(** C6. After any defined sequence of calls on a new manager, a player
    is known exactly when some call named it, and the length of its
    [scores] is the number of [InitRound] calls made after the first
    call that named it, not [current_round_]: after [InitRound],
    [GetOrAddPlayer("alice")], [InitRound], the length is 1 while
    [current_round_] is 2. *)
Theorem scores_length_is_rounds_since_first_reference :
  (∀ calls s gs name,
     run GameState_ctor calls = Some (s, gs) →
     length ∘ scores <$> players_ s !! name =
       rounds_since_first_reference name calls) ∧
  (∃ s gs p,
     run GameState_ctor
       [CallInitRound; CallGetOrAddPlayer "alice"; CallInitRound] = Some (s, gs) ∧
     players_ s !! "alice" = Some p ∧ length (scores p) = 1%nat ∧
     current_round_ s = 2).
Proof.
  split.
  - intros calls s gs name Hrun.
    pose proof (run_from_scores_length calls _ _ name Hrun) as Hlen.
    cbn [fst GameState_ctor players_] in Hlen. by rewrite lookup_empty in Hlen.
  - unfold run.
    rewrite run_from_cons_InitRound, run_from_cons_GetOrAddPlayer,
      run_from_cons_InitRound.
    eexists _, _, _. split; [reflexivity|]. cbn [fst snd]. split; [|split].
    + rewrite InitRound_players, GetOrAddPlayer_players.
      rewrite decide_True by done. rewrite InitRound_players.
      cbn [GameState_ctor players_]. rewrite lookup_empty. reflexivity.
    + reflexivity.
    + rewrite InitRound_current_round.
      unfold GetOrAddPlayer. destruct (operator_at _ _) as [q m].
      cbn [snd set_players current_round_]. rewrite InitRound_current_round.
      reflexivity.
Qed.

(** C7. Two managers whose engines are in the same state (two managers
    just constructed both hold [engine_seed 0]) and that are driven with
    the same defined sequence of calls return the same grids: one per
    [InitRound] call, equal round for round. *)
Theorem same_engine_same_grids (s1 s2 : GameState engine) calls s1' s2' gs1 gs2 :
  rng_ s1 = rng_ s2 →
  run s1 calls = Some (s1', gs1) →
  run s2 calls = Some (s2', gs2) →
  rng_ GameState_ctor = engine_seed 0 ∧
  length gs1 = count_rounds calls ∧
  gs1 = gs2 ∧ (∀ n, gs1 !! n = gs2 !! n) ∧ rng_ s1' = rng_ s2'.
Proof.
  intros Hrng H1 H2. split; [done|].
  destruct (run_from_grids_determined calls (s1, []) (s2, []) (s1', gs1) (s2', gs2))
    as [Hrng' Hgs]; [done|done|exact H1|exact H2|].
  simpl in Hrng', Hgs. split; [|by subst].
  pose proof (run_from_grids_length calls _ _ H1) as Hlen. simpl in Hlen. done.
Qed.

(** C8. [GetOrAddPlayer(name)] on an unknown name inserts a player whose
    [scores] and [current_round_scores_] are both empty and returns it;
    on a known name it returns the player stored and changes nothing. *)
Theorem GetOrAddPlayer_creates_or_returns (s : GameState engine) name :
  (players_ s !! name = None →
   GetOrAddPlayer name s =
     ({| scores := []; current_round_scores_ := [] |},
      set_players
        (<[name := {| scores := []; current_round_scores_ := [] |}]> (players_ s))
        s)) ∧
  (∀ p, players_ s !! name = Some p → GetOrAddPlayer name s = (p, s)).
Proof.
  split.
  - intros Hp. unfold GetOrAddPlayer. by rewrite (operator_at_None _ _ Hp).
  - intros p Hp. unfold GetOrAddPlayer.
    by rewrite (operator_at_Some _ _ _ Hp), set_players_id.
Qed.

(** C9, amended.  In every state reached from the constructor by a
    defined sequence of calls, every player whose [scores] is not empty
    has as last entry the sum of its [current_round_scores_] modulo 2^64;
    it is the sum itself whenever the deltas passed are [std::size_t]
    values and the sum is below 2^64. *)
Theorem back_of_scores_is_round_total_mod calls (s : GameState engine) gs name p :
  run GameState_ctor calls = Some (s, gs) →
  players_ s !! name = Some p → scores p ≠ [] →
  Vector.back (scores p) =
    Some (SizeT.wrap (Vector.sum (current_round_scores_ p))) ∧
  (Forall call_args_in_range calls →
   Vector.sum (current_round_scores_ p) < SizeT.modulus →
   Vector.back (scores p) = Some (Vector.sum (current_round_scores_ p))).
Proof.
  intros Hrun Hp Hne.
  assert (Hback : back_is_round_total p).
  { apply (run_from_invariant_all
             (λ s, ∀ k p, players_ s !! k = Some p → back_is_round_total p)
             step_round_total calls (GameState_ctor, []) (s, gs)) with name;
      [|exact Hrun|exact Hp].
    intros k q Hq. simpl in Hq. by rewrite lookup_empty in Hq. }
  split; [by apply Hback|].
  intros Hargs Hsum. rewrite (Hback Hne). f_equal. apply wrap_small.
  split; [|done]. apply sum_nonneg.
  apply (run_from_invariant
           (λ s, ∀ k p, players_ s !! k = Some p → deltas_nonneg p)
           call_args_in_range step_deltas_nonneg calls
           (GameState_ctor, []) (s, gs)) with name;
    [exact Hargs| |exact Hrun|exact Hp].
  intros k q Hq. simpl in Hq. by rewrite lookup_empty in Hq.
Qed.

(** C10. No operation writes [total_rounds_]: each of the three leaves
    it as it was, so it is still 0 after any defined sequence of calls
    on a new manager.  [GetOrAddPlayer] and [UpdatePlayerScore] leave
    the round counter, the engine and every other player alone as
    well. *)
Theorem total_rounds_never_modified :
  (∀ s : GameState engine, total_rounds_ (InitRound s).2 = total_rounds_ s) ∧
  (∀ name (s : GameState engine),
     total_rounds_ (GetOrAddPlayer name s).2 = total_rounds_ s ∧
     current_round_ (GetOrAddPlayer name s).2 = current_round_ s ∧
     rng_ (GetOrAddPlayer name s).2 = rng_ s ∧
     ∀ k, k ≠ name →
          players_ (GetOrAddPlayer name s).2 !! k = players_ s !! k) ∧
  (∀ name delta (s s' : GameState engine),
     UpdatePlayerScore name delta s = Some s' →
     total_rounds_ s' = total_rounds_ s ∧
     current_round_ s' = current_round_ s ∧
     rng_ s' = rng_ s ∧
     ∀ k, k ≠ name → players_ s' !! k = players_ s !! k) ∧
  (∀ calls s gs,
     run GameState_ctor calls = Some (s, gs) → total_rounds_ s = 0).
Proof.
  split; [|split; [|split]].
  - apply InitRound_total_rounds.
  - intros name s. repeat split.
    1-3: unfold GetOrAddPlayer; by destruct (operator_at name (players_ s)).
    intros k Hk. rewrite GetOrAddPlayer_players. by rewrite decide_False.
  - intros name delta s s' Hup.
    apply UpdatePlayerScore_inv in Hup as (p & l & x & _ & _ & ->).
    repeat split. intros k Hk. simpl. by rewrite lookup_insert_ne.
  - intros calls s gs Hrun.
    apply (run_from_invariant_all (λ s, total_rounds_ s = 0)
             (λ c st st' Hst Hstep,
                eq_trans (step_total_rounds c st st' Hstep) Hst)
             calls (GameState_ctor, []) (s, gs)); [done|exact Hrun].
Qed.

End Specification.

(** * The manager of the program

    The specification at [std::mt19937] seeded with 0, on concrete call
    sequences. *)

Lemma SIZE_MAX_is_max : SIZE_MAX = SizeT.max.
Proof. reflexivity. Qed.

Lemma InitRound_grid_shape_and_range_witness :
  @dist_in_range mt19937 ∧ grid_ok (@InitRound mt19937 GameState_ctor).1.
Proof.
  split; [exact mt19937_dist_in_range|].
  exact (proj1 (proj2 (@InitRound_grid_shape_and_range mt19937
                         mt19937_dist_in_range)) GameState_ctor).
Defined.

Lemma InitRound_round_counter_and_players_witness :
  SizeT.in_range (current_round_ (@GameState_ctor mt19937) + 1) ∧
  current_round_ (InitRound (@GameState_ctor mt19937)).2 =
    current_round_ (@GameState_ctor mt19937) + 1.
Proof.
  assert (Hr : SizeT.in_range (current_round_ (@GameState_ctor mt19937) + 1))
    by (vm_compute; split; [discriminate|reflexivity]).
  split; [exact Hr|].
  exact (proj1 (proj2 (@InitRound_round_counter_and_players mt19937
                         GameState_ctor)) Hr).
Defined.

Lemma UpdatePlayerScore_defined_iff_scores_nonempty_witness :
  count_rounds [CallGetOrAddPlayer "bob"] = 0%nat ∧
  run (@GameState_ctor mt19937) [CallGetOrAddPlayer "bob"] =
    Some (@final_state mt19937 [CallGetOrAddPlayer "bob"], []) ∧
  UpdatePlayerScore "bob" 5
    (@final_state mt19937 [CallGetOrAddPlayer "bob"]) = None.
Proof.
  assert (H1 : count_rounds [CallGetOrAddPlayer "bob"] = 0%nat)
    by (vm_compute; reflexivity).
  assert (H2 : run (@GameState_ctor mt19937) [CallGetOrAddPlayer "bob"] =
                 Some (@final_state mt19937 [CallGetOrAddPlayer "bob"], []))
    by (vm_compute; reflexivity).
  split; [exact H1|split; [exact H2|]].
  exact (proj2 (proj2 (@UpdatePlayerScore_defined_iff_scores_nonempty mt19937))
           [CallGetOrAddPlayer "bob"] _ _ "bob" 5 H1 H2).
Defined.

(** C5 as first stated fails: after a first delta 1 in the round, the
    calls with 5 then 3 leave the deltas [1; 5; 3], not [5; 3]; and from a
    last entry [SIZE_MAX - 2] they leave 5, not that entry plus 8. *)
Lemma UpdatePlayerScore_5_3_counterexample :
  (∃ p p',
     @player_after mt19937 bob_scores_1 "bob" = Some p ∧
     @player_after mt19937 bob_scores_1_5_3 "bob" = Some p' ∧
     scores p ≠ [] ∧
     current_round_scores_ p' = [1; 5; 3] ∧
     current_round_scores_ p' ≠ [5; 3]) ∧
  (∃ p p',
     @player_after mt19937 bob_scores_near_max "bob" = Some p ∧
     @player_after mt19937 bob_scores_near_max_5_3 "bob" = Some p' ∧
     Vector.back (scores p) = Some (SIZE_MAX - 2) ∧
     Vector.back (scores p') = Some 5 ∧
     5 ≠ (SIZE_MAX - 2) + 8).
Proof.
  split.
  - exists {| scores := [1]; current_round_scores_ := [1] |},
           {| scores := [9]; current_round_scores_ := [1; 5; 3] |}.
    split; [vm_compute; reflexivity|]. split; [vm_compute; reflexivity|].
    split; [discriminate|]. split; [reflexivity|discriminate].
  - exists {| scores := [SIZE_MAX - 2]; current_round_scores_ := [SIZE_MAX - 2] |},
           {| scores := [5]; current_round_scores_ := [SIZE_MAX - 2; 5; 3] |}.
    split; [vm_compute; reflexivity|]. split; [vm_compute; reflexivity|].
    split; [reflexivity|]. split; [reflexivity|discriminate].
Qed.

Lemma UpdatePlayerScore_adds_delta_and_appends_witness :
  players_ (@final_state mt19937 bob_joins_then_round) !! "bob" =
    Some {| scores := [0]; current_round_scores_ := [] |} ∧
  scores {| scores := [0]; current_round_scores_ := [] |} ≠ [] ∧
  ∃ l x, [0] = l ++ [x] ∧
    UpdatePlayerScore "bob" 5 (@final_state mt19937 bob_joins_then_round)
      ≫= UpdatePlayerScore "bob" 3 =
    Some (set_players
            (<["bob" := {| scores := l ++ [SizeT.wrap (x + 8)];
                           current_round_scores_ := [5; 3] |}]>
               (players_ (@final_state mt19937 bob_joins_then_round)))
            (@final_state mt19937 bob_joins_then_round)).
Proof.
  assert (H1 : players_ (@final_state mt19937 bob_joins_then_round) !! "bob" =
                 Some {| scores := [0]; current_round_scores_ := [] |})
    by (vm_compute; reflexivity).
  assert (H2 : scores {| scores := [0]; current_round_scores_ := [] |} ≠ [])
    by discriminate.
  split; [exact H1|split; [exact H2|]].
  destruct (@UpdatePlayerScore_adds_delta_and_appends mt19937
              (@final_state mt19937 bob_joins_then_round) "bob" _ H1 H2)
    as (l & x & Hsc & _ & Htwo & _).
  exists l, x. split; [exact Hsc|exact Htwo].
Defined.

Lemma scores_length_is_rounds_since_first_reference_witness :
  run (@GameState_ctor mt19937) alice_joins_late =
    Some (@final_state mt19937 alice_joins_late,
          @final_grids mt19937 alice_joins_late) ∧
  length ∘ scores <$>
    players_ (@final_state mt19937 alice_joins_late) !! "alice" =
    rounds_since_first_reference "alice" alice_joins_late.
Proof.
  assert (H1 : run (@GameState_ctor mt19937) alice_joins_late =
                 Some (@final_state mt19937 alice_joins_late,
                       @final_grids mt19937 alice_joins_late))
    by (vm_compute; reflexivity).
  split; [exact H1|].
  exact (proj1 (@scores_length_is_rounds_since_first_reference mt19937)
           alice_joins_late _ _ "alice" H1).
Defined.

Lemma same_engine_same_grids_witness :
  rng_ (@GameState_ctor mt19937) =
    rng_ (@final_state mt19937 [CallGetOrAddPlayer "bob"]) ∧
  @final_grids mt19937 alice_joins_late =
    @final_grids mt19937 (CallGetOrAddPlayer "bob" :: alice_joins_late).
Proof.
  assert (H0 : rng_ (@GameState_ctor mt19937) =
                 rng_ (@final_state mt19937 [CallGetOrAddPlayer "bob"]))
    by (vm_compute; reflexivity).
  assert (H1 : run (@GameState_ctor mt19937) alice_joins_late =
                 Some (@final_state mt19937 alice_joins_late,
                       @final_grids mt19937 alice_joins_late))
    by (vm_compute; reflexivity).
  assert (H2 : run (@final_state mt19937 [CallGetOrAddPlayer "bob"])
                 alice_joins_late =
                 Some (@final_state mt19937
                         (CallGetOrAddPlayer "bob" :: alice_joins_late),
                       @final_grids mt19937
                         (CallGetOrAddPlayer "bob" :: alice_joins_late)))
    by (vm_compute; reflexivity).
  split; [exact H0|].
  exact (proj1 (proj2 (proj2 (@same_engine_same_grids mt19937 _ _
                                alice_joins_late _ _ _ _ H0 H1 H2)))).
Defined.

Lemma GetOrAddPlayer_creates_or_returns_witness :
  players_ (@GameState_ctor mt19937) !! "alice" = None ∧
  GetOrAddPlayer "alice" (@GameState_ctor mt19937) =
    ({| scores := []; current_round_scores_ := [] |},
     set_players
       (<["alice" := {| scores := []; current_round_scores_ := [] |}]>
          (players_ (@GameState_ctor mt19937)))
       GameState_ctor).
Proof.
  assert (H1 : players_ (@GameState_ctor mt19937) !! "alice" = None)
    by (vm_compute; reflexivity).
  split; [exact H1|].
  exact (proj1 (@GetOrAddPlayer_creates_or_returns mt19937 GameState_ctor
                  "alice") H1).
Defined.

(** C9 as first stated fails: after the deltas [SIZE_MAX] and 1 in one
    round the last entry of [scores] is 0 while the deltas sum to 2^64. *)
Lemma back_of_scores_is_round_total_counterexample :
  Forall call_args_in_range bob_scores_max_1 ∧
  ∃ p,
    @player_after mt19937 bob_scores_max_1 "bob" = Some p ∧
    scores p ≠ [] ∧
    Vector.back (scores p) = Some 0 ∧
    Vector.sum (current_round_scores_ p) = SIZE_MAX + 1 ∧
    Vector.back (scores p) ≠ Some (Vector.sum (current_round_scores_ p)).
Proof.
  split.
  - repeat (apply Forall_cons; split; [by vm_compute|]). apply Forall_nil_2.
  - exists {| scores := [0]; current_round_scores_ := [SIZE_MAX; 1] |}.
    split; [vm_compute; reflexivity|]. split; [discriminate|].
    split; [reflexivity|]. split; [reflexivity|discriminate].
Qed.

Lemma back_of_scores_is_round_total_mod_witness :
  run (@GameState_ctor mt19937) bob_scores_10_5 =
    Some (@final_state mt19937 bob_scores_10_5,
          @final_grids mt19937 bob_scores_10_5) ∧
  players_ (@final_state mt19937 bob_scores_10_5) !! "bob" =
    Some {| scores := [15]; current_round_scores_ := [10; 5] |} ∧
  Vector.back [15] = Some (SizeT.wrap (Vector.sum [10; 5])).
Proof.
  assert (H1 : run (@GameState_ctor mt19937) bob_scores_10_5 =
                 Some (@final_state mt19937 bob_scores_10_5,
                       @final_grids mt19937 bob_scores_10_5))
    by (vm_compute; reflexivity).
  assert (H2 : players_ (@final_state mt19937 bob_scores_10_5) !! "bob" =
                 Some {| scores := [15]; current_round_scores_ := [10; 5] |})
    by (vm_compute; reflexivity).
  assert (H3 : scores {| scores := [15]; current_round_scores_ := [10; 5] |} ≠ [])
    by discriminate.
  split; [exact H1|split; [exact H2|]].
  exact (proj1 (@back_of_scores_is_round_total_mod mt19937 bob_scores_10_5
                  _ _ "bob" _ H1 H2 H3)).
Defined.

Lemma total_rounds_never_modified_witness :
  run (@GameState_ctor mt19937) bob_scores_10_5 =
    Some (@final_state mt19937 bob_scores_10_5,
          @final_grids mt19937 bob_scores_10_5) ∧
  total_rounds_ (@final_state mt19937 bob_scores_10_5) = 0.
Proof.
  assert (H1 : run (@GameState_ctor mt19937) bob_scores_10_5 =
                 Some (@final_state mt19937 bob_scores_10_5,
                       @final_grids mt19937 bob_scores_10_5))
    by (vm_compute; reflexivity).
  split; [exact H1|].
  exact (proj2 (proj2 (proj2 (@total_rounds_never_modified mt19937)))
           bob_scores_10_5 _ _ H1).
Defined.

(** * Further properties of the operations *)

Lemma current_round_calls_snoc calls c :
  current_round_calls (calls ++ [c]) =
    if is_init_round c then [] else current_round_calls calls ++ [c].
Proof. unfold current_round_calls. by rewrite foldl_app. Qed.

Lemma deltas_for_snoc name calls c :
  deltas_for name (calls ++ [c]) = deltas_for name calls ++ deltas_for name [c].
Proof. unfold deltas_for. by rewrite omap_app. Qed.

Lemma deltas_for_update name x delta :
  deltas_for name [CallUpdatePlayerScore x delta] =
    if bool_decide (x = name) then [delta] else [].
Proof. unfold deltas_for. simpl. by destruct (bool_decide (x = name)). Qed.

Lemma added_names_cons c calls :
  added_names (c :: calls) = added_names [c] ++ added_names calls.
Proof. unfold added_names. by rewrite <-omap_app. Qed.

Lemma snoc_eq_app_cons {A} (l pre post : list A) (x c : A) :
  l ++ [x] = pre ++ c :: post →
  (post = [] ∧ pre = l ∧ c = x) ∨
  (∃ post', post = post' ++ [x] ∧ l = pre ++ c :: post').
Proof.
  destruct post as [|y post' _] using rev_ind; intros Heq.
  - apply app_inj_tail in Heq as [-> ->]. by left.
  - right. change (l ++ [x] = pre ++ (c :: post') ++ [y]) in Heq.
    rewrite app_assoc in Heq. apply app_inj_tail in Heq as [-> ->].
    by exists post'.
Qed.

Section FurtherProperties.
Context `{R : URBG}.

Lemma run_from_snoc st calls c :
  run_from st (calls ++ [c]) = run_from st calls ≫= λ st', step st' c.
Proof.
  revert st. induction calls as [|c0 calls IH]; intros st; simpl.
  - by destruct (step st c).
  - destruct (step st c0) as [st1|]; simpl; [apply IH|done].
Qed.

Lemma UpdatePlayerScore_is_Some name delta (s : GameState engine) :
  is_Some (UpdatePlayerScore name delta s) ↔
  ∃ p, players_ s !! name = Some p ∧ scores p ≠ [].
Proof.
  split.
  - intros [s' Hup].
    apply UpdatePlayerScore_inv in Hup as (p & l & x & Hp & Hsc & _).
    exists p. split; [done|]. rewrite Hsc. by destruct l.
  - intros (p & Hp & Hsc).
    destruct (scores p) as [|x l _] eqn:Hl using rev_ind; [done|].
    erewrite UpdatePlayerScore_Some by done. by eexists.
Qed.

Lemma nth_draw_engine_after m n e :
  nth_draw n (engine_after m e) = nth_draw (m + n) e.
Proof. unfold nth_draw. by rewrite engine_after_add. Qed.

(** The engine and the grids along a run. *)
Lemma run_from_engine calls :
  ∀ (s : GameState engine) gs0 st',
    run_from (s, gs0) calls = Some st' →
    rng_ st'.1 = engine_after (count_rounds calls * (HEIGHT * WIDTH)) (rng_ s) ∧
    st'.2 = gs0 ++ ((λ k, (fill_grid (engine_after (k * (HEIGHT * WIDTH))
                                         (rng_ s))).1)
                      <$> seq 0 (count_rounds calls)).
Proof.
  induction calls as [|c calls IH]; intros s gs0 st' Hrun.
  - simpl in Hrun. injection Hrun as <-. unfold count_rounds. simpl.
    by rewrite app_nil_r.
  - rewrite count_rounds_cons. destruct c as [|x|x delta].
    + rewrite run_from_cons_InitRound in Hrun.
      apply IH in Hrun as [Hrng Hgs]. rewrite InitRound_rng in Hrng, Hgs.
      cbn [is_init_round]. split.
      * rewrite Hrng.
        pose proof (fill_grid_drawn (rng_ s)) as (He & _). rewrite He.
        rewrite <-engine_after_add. f_equal; lia.
      * rewrite Hgs, <-app_assoc. f_equal.
        change (1 + count_rounds calls)%nat with (S (count_rounds calls)).
        cbn [seq fmap list_fmap]. rewrite InitRound_grid. f_equal.
        rewrite <-fmap_S_seq, <-list_fmap_compose.
        apply list_fmap_ext. intros _ k _. simpl.
        pose proof (fill_grid_drawn (rng_ s)) as (He & _). rewrite He.
        rewrite <-engine_after_add. do 3 f_equal; lia.
    + rewrite run_from_cons_GetOrAddPlayer in Hrun.
      apply IH in Hrun as [Hrng Hgs]. cbn [is_init_round]. simpl.
      replace (rng_ (GetOrAddPlayer x s).2) with (rng_ s) in Hrng, Hgs; [done|].
      unfold GetOrAddPlayer. by destruct (operator_at x (players_ s)).
    + rewrite run_from_cons_UpdatePlayerScore in Hrun.
      destruct (UpdatePlayerScore x delta s) as [s1|] eqn:Hup; [|done].
      simpl in Hrun. apply IH in Hrun as [Hrng Hgs]. cbn [is_init_round]. simpl.
      apply UpdatePlayerScore_inv in Hup as (p & l & y & _ & _ & ->).
      done.
Qed.

(** X1. [InitRound] makes exactly [HEIGHT * WIDTH] = 170 draws and stores
    them in row-major order: the cell of row [i] and column [j] holds
    draw number [i * WIDTH + j], and the engine is left after the 170th. *)
Theorem InitRound_row_major_draws (s : GameState engine) :
  (HEIGHT * WIDTH = 170)%nat ∧
  rng_ (InitRound s).2 = engine_after (HEIGHT * WIDTH) (rng_ s) ∧
  ∀ i j, (i < HEIGHT)%nat → (j < WIDTH)%nat →
    cell_at (InitRound s).1 i j =
      Some {| num_ := nth_draw (i * WIDTH + j) (rng_ s) |}.
Proof.
  split; [done|].
  rewrite InitRound_rng, InitRound_grid.
  pose proof (fill_grid_drawn (rng_ s)) as (He & _ & _ & Hcells).
  split.
  - rewrite He. f_equal; lia.
  - intros i j Hi Hj. apply (Hcells i j Hi Hj). lia.
Qed.

(** X2. Only [InitRound] advances the engine, and it is never reseeded:
    after a defined call sequence the engine has made 170 draws per
    [InitRound] call, and the cell ([i], [j]) of the [k]-th grid returned
    holds draw number [k * 170 + i * WIDTH + j] of the engine the
    sequence started with. *)
Theorem grids_are_successive_draws calls (s s' : GameState engine) gs :
  run s calls = Some (s', gs) →
  rng_ s' = engine_after (count_rounds calls * (HEIGHT * WIDTH)) (rng_ s) ∧
  length gs = count_rounds calls ∧
  ∀ k g i j, gs !! k = Some g → (i < HEIGHT)%nat → (j < WIDTH)%nat →
    cell_at g i j =
      Some {| num_ := nth_draw (k * (HEIGHT * WIDTH) + (i * WIDTH + j)) (rng_ s) |}.
Proof.
  intros Hrun. apply run_from_engine in Hrun as [Hrng Hgs].
  cbn [fst snd app] in Hrng, Hgs. split; [done|]. subst gs. split.
  - by rewrite length_fmap, length_seq.
  - intros k g i j Hk Hi Hj.
    apply list_lookup_fmap_Some in Hk as (k' & -> & Hk').
    apply lookup_seq in Hk' as [Hk' _]. change (0 + k)%nat with k in Hk'.
    subst k'. cbv beta.
    pose proof (fill_grid_drawn (engine_after (k * (HEIGHT * WIDTH)) (rng_ s)))
      as (_ & _ & _ & Hcells).
    rewrite (Hcells i j Hi Hj) by lia. by rewrite nth_draw_engine_after.
Qed.

Lemma operator_at_lookup name (m : gmap string Player) k :
  (operator_at name m).2 !! k =
    if decide (k = name) then Some (default Player_default (m !! name))
    else m !! k.
Proof.
  unfold operator_at.
  destruct (m !! name) as [p|] eqn:Hp; simpl; case_decide; subst; try done.
  - by rewrite lookup_insert_eq.
  - by rewrite lookup_insert_ne.
Qed.

Lemma GetOrAddPlayer_state name (s : GameState engine) :
  (GetOrAddPlayer name s).2 = set_players (operator_at name (players_ s)).2 s.
Proof. unfold GetOrAddPlayer. by destruct (operator_at name (players_ s)). Qed.


(** X3. [GetOrAddPlayer] is idempotent: a second call with the same name
    returns the same player and leaves the state of the first call. *)
Theorem GetOrAddPlayer_idempotent name (s : GameState engine) :
  GetOrAddPlayer name (GetOrAddPlayer name s).2 = GetOrAddPlayer name s.
Proof.
  unfold GetOrAddPlayer, operator_at.
  destruct (players_ s !! name) as [p|] eqn:Hp; simpl.
  - by rewrite Hp.
  - by rewrite lookup_insert_eq.
Qed.

(** X4. [GetOrAddPlayer] calls commute: the state after adding two names
    does not depend on the order of the two calls. *)
Theorem GetOrAddPlayer_commute a b (s : GameState engine) :
  (GetOrAddPlayer a (GetOrAddPlayer b s).2).2 =
  (GetOrAddPlayer b (GetOrAddPlayer a s).2).2.
Proof.
  rewrite !GetOrAddPlayer_state. unfold set_players. simpl. f_equal.
  apply map_eq. intros k. rewrite !operator_at_lookup.
  repeat case_decide; simplify_eq; done.
Qed.

Lemma step_dom c (st st' : GameState engine * list grid_t) :
  step st c = Some st' →
  dom (players_ st'.1) = dom (players_ st.1) ∪ list_to_set (added_names [c]).
Proof.
  intros Hst. apply step_inv in Hst. apply set_eq. intros k.
  rewrite elem_of_union, !elem_of_dom. destruct c as [|x|x delta].
  - subst st'. cbn [fst]. rewrite InitRound_players, fmap_is_Some.
    split; [by left|]. intros [?|Hk]; [done|].
    apply elem_of_list_to_set in Hk. simpl in Hk. by apply elem_of_nil in Hk.
  - subst st'. cbn [fst]. rewrite GetOrAddPlayer_state.
    cbn [set_players players_]. rewrite operator_at_lookup.
    rewrite elem_of_list_to_set.
    change (added_names [CallGetOrAddPlayer x]) with [x].
    rewrite list_elem_of_singleton.
    case_decide as Hk; [by split; [right|eexists]|].
    split; [by left|]. by intros [?|?].
  - destruct Hst as (s' & Hup & ->). cbn [fst snd].
    apply UpdatePlayerScore_inv in Hup as (p & l & y & Hp & _ & ->).
    cbn [set_players players_].
    split.
    + intros Hk. left. destruct (decide (k = x)) as [->|Hne]; [by eexists|].
      by rewrite lookup_insert_ne in Hk.
    + intros [Hk|Hk];
        [|apply elem_of_list_to_set in Hk; simpl in Hk; by apply elem_of_nil in Hk].
      destruct (decide (k = x)) as [->|Hne].
      * rewrite lookup_insert_eq. by eexists.
      * by rewrite lookup_insert_ne.
Qed.

(** X5. No operation ever removes a player: after a defined call sequence
    the set of known names is the set known before together with the
    names passed to [GetOrAddPlayer]. *)
Theorem players_are_never_removed calls (s s' : GameState engine) gs :
  run s calls = Some (s', gs) →
  dom (players_ s') = dom (players_ s) ∪ list_to_set (added_names calls).
Proof.
  unfold run. generalize (@nil grid_t) as gs0. revert s.
  induction calls as [|c calls IH]; intros s gs0 Hrun.
  - simpl in Hrun. injection Hrun as <- _.
    change (list_to_set (added_names [])) with (∅ : gset string).
    by rewrite (right_id_L ∅ (∪)).
  - cbn [run_from] in Hrun.
    destruct (step (s, gs0) c) as [[s1 gs1]|] eqn:Hst; [|done]. cbn in Hrun.
    rewrite (IH _ _ Hrun). apply step_dom in Hst. cbn [fst] in Hst. rewrite Hst.
    rewrite (added_names_cons c calls), list_to_set_app_L.
    by rewrite (assoc_L (∪)).
Qed.

(** The deltas of the round being played, along a run from a new
    manager. *)
Lemma run_current_round_scores calls :
  ∀ (s : GameState engine) gs name,
    run GameState_ctor calls = Some (s, gs) →
    default [] (current_round_scores_ <$> players_ s !! name) =
      deltas_for name (current_round_calls calls).
Proof.
  unfold run. induction calls as [|c calls IH] using rev_ind; intros s gs name Hrun.
  - simpl in Hrun. injection Hrun as <- _. simpl. by rewrite lookup_empty.
  - rewrite run_from_snoc in Hrun.
    destruct (run_from (GameState_ctor, []) calls) as [[s0 gs0]|] eqn:Hrun0;
      [|done].
    cbn [mbind option_bind] in Hrun. specialize (IH s0 gs0 name eq_refl).
    rewrite current_round_calls_snoc. apply step_inv in Hrun.
    cbn [fst snd] in Hrun. destruct c as [|x|x delta]; cbn [is_init_round].
    + apply (f_equal fst) in Hrun. cbn [fst] in Hrun. subst s.
      rewrite InitRound_players.
      by destruct (players_ s0 !! name).
    + apply (f_equal fst) in Hrun. cbn [fst] in Hrun. subst s.
      rewrite deltas_for_snoc, <-IH.
      rewrite GetOrAddPlayer_players. cbn [deltas_for omap]. rewrite app_nil_r.
      case_decide as Hx; [|done]. subst x.
      by destruct (players_ s0 !! name).
    + destruct Hrun as (s1 & Hup & Heq). injection Heq as -> _.
      apply UpdatePlayerScore_inv in Hup as (p & l & y & Hp & _ & ->).
      rewrite deltas_for_snoc, <-IH, deltas_for_update.
      cbn [set_players players_].
      destruct (decide (x = name)) as [->|Hne].
      * rewrite lookup_insert_eq, Hp, bool_decide_eq_true_2 by done. done.
      * rewrite lookup_insert_ne, bool_decide_eq_false_2 by done.
        by rewrite app_nil_r.
Qed.

(** X6. On a manager driven from its construction, a player's
    [current_round_scores_] is exactly the list of deltas passed to
    [UpdatePlayerScore] for that player since the last [InitRound] call,
    in call order; a name that is not known has received none. *)
Theorem current_round_scores_are_deltas_since_last_round
    calls (s : GameState engine) gs name :
  run GameState_ctor calls = Some (s, gs) →
  (∀ p, players_ s !! name = Some p →
        current_round_scores_ p = deltas_for name (current_round_calls calls)) ∧
  (players_ s !! name = None →
   deltas_for name (current_round_calls calls) = []).
Proof.
  intros Hrun. pose proof (run_current_round_scores calls s gs name Hrun) as Hcur.
  split.
  - intros p Hp. by rewrite Hp in Hcur.
  - intros Hp. by rewrite Hp in Hcur.
Qed.

Lemma closed_totals_prefix p : closed_totals p `prefix_of` scores p.
Proof. unfold closed_totals. apply prefix_take. Qed.

Lemma closed_totals_start_round p : closed_totals (start_round p) = scores p.
Proof.
  unfold closed_totals, start_round, Vector.push_back. simpl.
  rewrite length_app, Nat.add_sub. apply take_app_length.
Qed.

Lemma step_closed_totals c (st st' : GameState engine * list grid_t) name p :
  players_ st.1 !! name = Some p → step st c = Some st' →
  ∃ p', players_ st'.1 !! name = Some p' ∧
        closed_totals p `prefix_of` closed_totals p'.
Proof.
  intros Hp Hst. apply step_inv in Hst. destruct c as [|x|x delta].
  - subst st'. cbn [fst]. rewrite InitRound_players, Hp. eexists. split; [done|].
    rewrite closed_totals_start_round. apply closed_totals_prefix.
  - subst st'. cbn [fst]. rewrite GetOrAddPlayer_players.
    exists p. split; [|done]. case_decide; [subst; by rewrite Hp|done].
  - destruct Hst as (s' & Hup & ->). cbn [fst].
    apply UpdatePlayerScore_inv in Hup as (q & l & y & Hq & Hsc & ->).
    cbn [set_players players_]. destruct (decide (x = name)) as [->|Hne].
    + rewrite lookup_insert_eq. eexists. split; [done|].
      assert (q = p) as -> by congruence.
      unfold closed_totals. simpl. rewrite Hsc, !length_app, !Nat.add_sub.
      by rewrite !take_app_length.
    + rewrite lookup_insert_ne by done. by exists p.
Qed.

Lemma run_from_closed_totals calls :
  ∀ (st st' : GameState engine * list grid_t) name p,
    players_ st.1 !! name = Some p → run_from st calls = Some st' →
    ∃ p', players_ st'.1 !! name = Some p' ∧
          closed_totals p `prefix_of` closed_totals p'.
Proof.
  induction calls as [|c calls IH]; intros st st' name p Hp Hrun.
  - simpl in Hrun. injection Hrun as <-. by exists p.
  - cbn [run_from] in Hrun.
    destruct (step st c) as [st1|] eqn:Hst; [|done]. cbn in Hrun.
    destruct (step_closed_totals _ _ _ _ _ Hp Hst) as (p1 & Hp1 & Hpre1).
    destruct (IH _ _ _ _ Hp1 Hrun) as (p' & Hp' & Hpre).
    exists p'. split; [done|]. by etrans.
Qed.

(** X7. The totals of closed rounds never change: along any defined call
    sequence, all entries of a player's [scores] but the last stay where
    they are, and once [InitRound] has closed a round the whole [scores]
    of before the call is a prefix of every later [scores]. *)
Theorem closed_round_totals_never_change
    calls (s s' : GameState engine) gs name p :
  players_ s !! name = Some p →
  (run s calls = Some (s', gs) →
   ∃ p', players_ s' !! name = Some p' ∧
         closed_totals p `prefix_of` scores p') ∧
  (run (InitRound s).2 calls = Some (s', gs) →
   ∃ p', players_ s' !! name = Some p' ∧ scores p `prefix_of` scores p').
Proof.
  intros Hp. split; intros Hrun.
  - destruct (run_from_closed_totals calls (s, []) (s', gs) name p Hp Hrun)
      as (p' & Hp' & Hpre).
    exists p'. split; [done|]. etrans; [exact Hpre|apply closed_totals_prefix].
  - assert (Hp0 : players_ (InitRound s).2 !! name = Some (start_round p))
      by (by rewrite InitRound_players, Hp).
    destruct (run_from_closed_totals calls ((InitRound s).2, []) (s', gs)
                name _ Hp0 Hrun) as (p' & Hp' & Hpre).
    exists p'. split; [done|]. rewrite closed_totals_start_round in Hpre.
    etrans; [exact Hpre|apply closed_totals_prefix].
Qed.

Lemma calls_in_order_snoc calls c :
  calls_in_order (calls ++ [c]) ↔ calls_in_order calls ∧ call_in_order calls c.
Proof.
  split.
  - intros Hord. split.
    + intros pre c0 post ->. apply (Hord pre c0 (post ++ [c])).
      by rewrite <-app_assoc.
    + by apply (Hord calls c []).
  - intros [Hord Hc] pre c0 post Heq.
    apply snoc_eq_app_cons in Heq as [(-> & -> & ->)|(post' & -> & ->)];
      [done|]. by eapply Hord.
Qed.

(** X8. A call sequence on a new manager is defined exactly when every
    [UpdatePlayerScore] call names a player for which at least one
    [InitRound] call was made after the first call that named it. *)
Theorem run_defined_iff_calls_in_order calls :
  is_Some (run GameState_ctor calls) ↔ calls_in_order calls.
Proof.
  unfold run. induction calls as [|c calls IH] using rev_ind.
  - split; [|by eexists]. intros _ pre c post Heq. by destruct pre.
  - rewrite run_from_snoc, calls_in_order_snoc, <-IH.
    destruct (run_from (GameState_ctor, []) calls) as [[s gs]|] eqn:Hrun;
      cbn [mbind option_bind]; [|split; [by intros [? ?]|by intros [[? ?] _]]].
    assert (Hlen : ∀ name,
               length ∘ scores <$> players_ s !! name =
               rounds_since_first_reference name calls).
    { intros name.
      pose proof (run_from_scores_length calls _ _ name Hrun) as Hlen.
      cbn [fst GameState_ctor players_] in Hlen. by rewrite lookup_empty in Hlen. }
    split.
    + intros Hst. split; [by eexists|].
      destruct c as [|x|x delta]; [done|done|]. cbn [call_in_order].
      destruct Hst as [st' Hst]. apply step_inv in Hst as (s' & Hup & _).
      apply UpdatePlayerScore_inv in Hup as (p & l & y & Hp & Hsc & _).
      cbn [fst] in Hp. rewrite <-Hlen, Hp. simpl. rewrite Hsc, length_app.
      exists (length l). simpl. f_equal. lia.
    + intros [_ Hc]. destruct c as [|x|x delta]; [by eexists|by eexists|].
      cbn [call_in_order] in Hc. destruct Hc as [k Hk]. rewrite <-Hlen in Hk.
      destruct (players_ s !! x) as [p|] eqn:Hp; [|done]. simpl in Hk.
      cbn [step fst]. destruct (proj2 (UpdatePlayerScore_is_Some x delta s))
        as [s' Hs'].
      { exists p. split; [done|]. intros Hnil. by rewrite Hnil in Hk. }
      rewrite Hs'. by eexists.
Qed.

Lemma add_in_range a b : SizeT.in_range (SizeT.add a b).
Proof. unfold SizeT.in_range, SizeT.add, SizeT.wrap. by apply Z.mod_pos_bound. Qed.

Lemma step_in_range c (st st' : GameState engine * list grid_t) :
  call_args_in_range c → state_in_range st.1 → step st c = Some st' →
  state_in_range st'.1.
Proof.
  intros Hc (Htot & Hcur & Hpl) Hst. apply step_inv in Hst.
  destruct c as [|x|x delta].
  - subst st'. cbn [fst]. split; [by rewrite InitRound_total_rounds|]. split.
    + rewrite InitRound_current_round. apply add_in_range.
    + intros name p. rewrite InitRound_players.
      destruct (players_ st.1 !! name) as [q|] eqn:Hq; [|done].
      intros [= <-]. destruct (Hpl _ _ Hq) as [Hsc _]. split; simpl.
      * apply Forall_app. split; [done|]. by apply Forall_singleton.
      * apply Forall_nil_2.
  - subst st'. cbn [fst]. rewrite GetOrAddPlayer_state.
    split; [exact Htot|]. split; [exact Hcur|].
    intros name p. cbn [set_players players_]. rewrite operator_at_lookup.
    case_decide; [|by apply Hpl]. intros [= <-].
    destruct (players_ st.1 !! x) as [q|] eqn:Hq; simpl; [by eapply Hpl|].
    split; apply Forall_nil_2.
  - destruct Hst as (s' & Hup & ->). cbn [fst].
    apply UpdatePlayerScore_inv in Hup as (q & l & y & Hq & Hsc & ->).
    split; [exact Htot|]. split; [exact Hcur|].
    intros name p. cbn [set_players players_].
    destruct (decide (name = x)) as [->|Hne].
    + rewrite lookup_insert_eq. intros [= <-].
      destruct (Hpl _ _ Hq) as [Hq1 Hq2]. rewrite Hsc in Hq1.
      apply Forall_app in Hq1 as [Hl _]. split; simpl.
      * apply Forall_app. split; [done|]. apply Forall_singleton, add_in_range.
      * apply Forall_app. split; [done|]. by apply Forall_singleton.
    + rewrite lookup_insert_ne by done. by apply Hpl.
Qed.

(** X9. Every value the manager stores is a [std::size_t] value: starting
    from a state whose counters and score entries lie in [0, 2^64) (the
    constructed manager is one), a defined sequence of calls with
    [std::size_t] deltas leaves such a state. *)
Theorem stored_values_stay_in_range calls (s s' : GameState engine) gs :
  Forall call_args_in_range calls →
  state_in_range s →
  run s calls = Some (s', gs) →
  state_in_range GameState_ctor ∧ state_in_range s'.
Proof.
  intros Hargs Hs Hrun. split.
  - split; [done|]. split; [done|]. intros name p Hp. simpl in Hp.
    by rewrite lookup_empty in Hp.
  - apply (run_from_invariant state_in_range call_args_in_range step_in_range
             calls (s, []) (s', gs) Hargs Hs Hrun).
Qed.

(** X10. Within a round the last cumulative entry can only decrease by
    wrapping: when [UpdatePlayerScore] adds [delta] to a last entry [x]
    (both [std::size_t] values), the new entry is below [x] exactly when
    [x + delta] does not fit [std::size_t]; otherwise it is [x + delta]. *)
Theorem UpdatePlayerScore_decreases_iff_overflow
    name delta (s : GameState engine) p l x :
  players_ s !! name = Some p → scores p = l ++ [x] →
  SizeT.in_range x → SizeT.in_range delta →
  ∃ s' p' x',
    UpdatePlayerScore name delta s = Some s' ∧
    players_ s' !! name = Some p' ∧
    Vector.back (scores p') = Some x' ∧
    (x' < x ↔ SizeT.modulus <= x + delta) ∧
    (x + delta < SizeT.modulus → x' = x + delta) ∧
    (SizeT.modulus <= x + delta → x' = x + delta - SizeT.modulus).
Proof.
  intros Hp Hsc Hx Hd. eexists _, _, (SizeT.add x delta).
  split; [by apply (UpdatePlayerScore_Some name delta s p l x)|].
  split; [cbn [set_players players_]; apply lookup_insert_eq|].
  split; [unfold Vector.back; simpl; by rewrite last_snoc|].
  unfold SizeT.in_range in Hx, Hd. unfold SizeT.add, SizeT.wrap.
  assert (Hm : 0 < SizeT.modulus) by done.
  destruct (Z_lt_le_dec (x + delta) SizeT.modulus) as [Hlt|Hge].
  - rewrite Z.mod_small by lia. lia.
  - assert (Hmod : (x + delta) mod SizeT.modulus = x + delta - SizeT.modulus).
    { replace (x + delta) with ((x + delta - SizeT.modulus) + 1 * SizeT.modulus)
        at 1 by lia.
      rewrite Z_mod_plus_full. apply Z.mod_small. lia. }
    rewrite Hmod. lia.
Qed.


Lemma run_from_app (st : GameState engine * list grid_t) calls1 calls2 :
  run_from st (calls1 ++ calls2) =
    run_from st calls1 ≫= λ st', run_from st' calls2.
Proof.
  revert st. induction calls1 as [|c calls1 IH]; intros st; simpl; [done|].
  destruct (step st c) as [st1|]; simpl; [apply IH|done].
Qed.

(** X12. The total recorded for a closed round is the sum, modulo 2^64,
    of the deltas the player was given during that round, and it stays:
    if a player has [k] entries in [scores] when [InitRound] closes a
    round, then after any further calls entry [k - 1] of its [scores] is
    the wrapped sum of the deltas passed for it since the [InitRound]
    before. *)
Theorem closed_round_total_is_sum_of_its_deltas
    pre post (s1 s : GameState engine) gs1 gs name p1 :
  run GameState_ctor pre = Some (s1, gs1) →
  players_ s1 !! name = Some p1 → scores p1 ≠ [] →
  run GameState_ctor (pre ++ CallInitRound :: post) = Some (s, gs) →
  ∃ p, players_ s !! name = Some p ∧
       scores p !! (length (scores p1) - 1)%nat =
         Some (SizeT.wrap (Vector.sum
                 (deltas_for name (current_round_calls pre)))).
Proof.
  intros Hpre Hp1 Hne Hrun. unfold run in Hrun.
  rewrite run_from_app in Hrun. unfold run in Hpre. rewrite Hpre in Hrun.
  cbn [mbind option_bind] in Hrun. rewrite run_from_cons_InitRound in Hrun.
  assert (Hp0 : players_ (InitRound s1).2 !! name = Some (start_round p1))
    by (by rewrite InitRound_players, Hp1).
  destruct (run_from_closed_totals post
              ((InitRound s1).2, gs1 ++ [(InitRound s1).1]) (s, gs) name _
              Hp0 Hrun) as (p & Hp & Hpre').
  cbn [fst] in Hp. exists p. split; [exact Hp|].
  rewrite closed_totals_start_round in Hpre'.
  assert (Hback : back_is_round_total p1).
  { apply (run_from_invariant_all
             (λ s, ∀ k p, players_ s !! k = Some p → back_is_round_total p)
             step_round_total pre (GameState_ctor, []) (s1, gs1)) with name;
      [|exact Hpre|exact Hp1].
    intros k q Hq. simpl in Hq. by rewrite lookup_empty in Hq. }
  specialize (Hback Hne). unfold Vector.back in Hback.
  rewrite last_lookup in Hback.
  pose proof (run_current_round_scores pre s1 gs1 name Hpre) as Hcur.
  rewrite Hp1 in Hcur. simpl in Hcur. rewrite <-Hcur.
  replace (length (scores p1) - 1)%nat with (pred (length (scores p1))) by lia.
  eapply prefix_lookup_Some; [exact Hback|].
  etrans; [exact Hpre'|apply closed_totals_prefix].
Qed.

End FurtherProperties.

(** * The further properties on the manager of the program *)

Lemma InitRound_row_major_draws_witness :
  (3 < HEIGHT)%nat ∧ (5 < WIDTH)%nat ∧
  cell_at (@InitRound mt19937 GameState_ctor).1 3 5 =
    Some {| num_ := @nth_draw mt19937 (3 * WIDTH + 5) (rng_ GameState_ctor) |}.
Proof.
  assert (H1 : (3 < HEIGHT)%nat) by (vm_compute; lia).
  assert (H2 : (5 < WIDTH)%nat) by (vm_compute; lia).
  split; [exact H1|split; [exact H2|]].
  exact (proj2 (proj2 (@InitRound_row_major_draws mt19937 GameState_ctor))
           3%nat 5%nat H1 H2).
Defined.

Lemma grids_are_successive_draws_witness :
  run (@GameState_ctor mt19937) alice_joins_late =
    Some (@final_state mt19937 alice_joins_late,
          @final_grids mt19937 alice_joins_late) ∧
  length (@final_grids mt19937 alice_joins_late) =
    count_rounds alice_joins_late.
Proof.
  assert (H1 : run (@GameState_ctor mt19937) alice_joins_late =
                 Some (@final_state mt19937 alice_joins_late,
                       @final_grids mt19937 alice_joins_late))
    by (vm_compute; reflexivity).
  split; [exact H1|].
  exact (proj1 (proj2 (@grids_are_successive_draws mt19937 alice_joins_late
                         _ _ _ H1))).
Defined.

Lemma players_are_never_removed_witness :
  run (@GameState_ctor mt19937) alice_joins_late =
    Some (@final_state mt19937 alice_joins_late,
          @final_grids mt19937 alice_joins_late) ∧
  dom (players_ (@final_state mt19937 alice_joins_late)) =
    dom (players_ (@GameState_ctor mt19937)) ∪
    list_to_set (added_names alice_joins_late).
Proof.
  assert (H1 : run (@GameState_ctor mt19937) alice_joins_late =
                 Some (@final_state mt19937 alice_joins_late,
                       @final_grids mt19937 alice_joins_late))
    by (vm_compute; reflexivity).
  split; [exact H1|].
  exact (@players_are_never_removed mt19937 alice_joins_late _ _ _ H1).
Defined.

Lemma current_round_scores_are_deltas_since_last_round_witness :
  run (@GameState_ctor mt19937) bob_scores_10_5 =
    Some (@final_state mt19937 bob_scores_10_5,
          @final_grids mt19937 bob_scores_10_5) ∧
  players_ (@final_state mt19937 bob_scores_10_5) !! "bob" =
    Some {| scores := [15]; current_round_scores_ := [10; 5] |} ∧
  [10; 5] = deltas_for "bob" (current_round_calls bob_scores_10_5).
Proof.
  assert (H1 : run (@GameState_ctor mt19937) bob_scores_10_5 =
                 Some (@final_state mt19937 bob_scores_10_5,
                       @final_grids mt19937 bob_scores_10_5))
    by (vm_compute; reflexivity).
  assert (H2 : players_ (@final_state mt19937 bob_scores_10_5) !! "bob" =
                 Some {| scores := [15]; current_round_scores_ := [10; 5] |})
    by (vm_compute; reflexivity).
  split; [exact H1|split; [exact H2|]].
  exact (proj1 (@current_round_scores_are_deltas_since_last_round mt19937
                  bob_scores_10_5 _ _ "bob" H1) _ H2).
Defined.

Lemma closed_round_totals_never_change_witness :
  players_ (@final_state mt19937 bob_scores_10_5) !! "bob" =
    Some {| scores := [15]; current_round_scores_ := [10; 5] |} ∧
  run (InitRound (@final_state mt19937 bob_scores_10_5)).2
      [CallUpdatePlayerScore "bob" 7] =
    Some (@final_state mt19937
            (bob_scores_10_5 ++ [CallInitRound; CallUpdatePlayerScore "bob" 7]),
          []) ∧
  ∃ p', players_ (@final_state mt19937
                    (bob_scores_10_5 ++
                     [CallInitRound; CallUpdatePlayerScore "bob" 7]))
          !! "bob" = Some p' ∧
        [15] `prefix_of` scores p'.
Proof.
  assert (H1 : players_ (@final_state mt19937 bob_scores_10_5) !! "bob" =
                 Some {| scores := [15]; current_round_scores_ := [10; 5] |})
    by (vm_compute; reflexivity).
  assert (H2 : run (InitRound (@final_state mt19937 bob_scores_10_5)).2
                 [CallUpdatePlayerScore "bob" 7] =
               Some (@final_state mt19937
                       (bob_scores_10_5 ++
                        [CallInitRound; CallUpdatePlayerScore "bob" 7]), []))
    by (vm_compute; reflexivity).
  split; [exact H1|split; [exact H2|]].
  exact (proj2 (@closed_round_totals_never_change mt19937
                  [CallUpdatePlayerScore "bob" 7] _ _ _ "bob" _ H1) H2).
Defined.

Lemma stored_values_stay_in_range_witness :
  Forall call_args_in_range bob_scores_10_5 ∧
  @state_in_range mt19937 GameState_ctor ∧
  run (@GameState_ctor mt19937) bob_scores_10_5 =
    Some (@final_state mt19937 bob_scores_10_5,
          @final_grids mt19937 bob_scores_10_5) ∧
  state_in_range (@final_state mt19937 bob_scores_10_5).
Proof.
  assert (H1 : Forall call_args_in_range bob_scores_10_5).
  { repeat (apply Forall_cons; split; [by vm_compute|]). apply Forall_nil_2. }
  assert (H2 : @state_in_range mt19937 GameState_ctor).
  { split; [by vm_compute|]. split; [by vm_compute|].
    intros name p Hp. simpl in Hp. by rewrite lookup_empty in Hp. }
  assert (H3 : run (@GameState_ctor mt19937) bob_scores_10_5 =
                 Some (@final_state mt19937 bob_scores_10_5,
                       @final_grids mt19937 bob_scores_10_5))
    by (vm_compute; reflexivity).
  split; [exact H1|split; [exact H2|split; [exact H3|]]].
  exact (proj2 (@stored_values_stay_in_range mt19937 bob_scores_10_5
                  _ _ _ H1 H2 H3)).
Defined.

Lemma UpdatePlayerScore_decreases_iff_overflow_witness :
  players_ (@final_state mt19937 bob_scores_near_max) !! "bob" =
    Some {| scores := [SIZE_MAX - 2];
            current_round_scores_ := [SIZE_MAX - 2] |} ∧
  SizeT.in_range (SIZE_MAX - 2) ∧ SizeT.in_range 5 ∧
  ∃ s' p' x',
    UpdatePlayerScore "bob" 5 (@final_state mt19937 bob_scores_near_max) =
      Some s' ∧
    players_ s' !! "bob" = Some p' ∧
    Vector.back (scores p') = Some x' ∧
    (x' < SIZE_MAX - 2 ↔ SizeT.modulus <= SIZE_MAX - 2 + 5).
Proof.
  assert (H1 : players_ (@final_state mt19937 bob_scores_near_max) !! "bob" =
                 Some {| scores := [SIZE_MAX - 2];
                         current_round_scores_ := [SIZE_MAX - 2] |})
    by (vm_compute; reflexivity).
  assert (H2 : SizeT.in_range (SIZE_MAX - 2))
    by (vm_compute; split; [discriminate|reflexivity]).
  assert (H3 : SizeT.in_range 5)
    by (vm_compute; split; [discriminate|reflexivity]).
  split; [exact H1|split; [exact H2|split; [exact H3|]]].
  destruct (@UpdatePlayerScore_decreases_iff_overflow mt19937 "bob" 5
              (@final_state mt19937 bob_scores_near_max) _ [] (SIZE_MAX - 2)
              H1 eq_refl H2 H3)
    as (s' & p' & x' & Hup & Hp' & Hback & Hiff & _).
  exists s', p', x'. split; [exact Hup|]. split; [exact Hp'|].
  split; [exact Hback|exact Hiff].
Defined.


Lemma closed_round_total_is_sum_of_its_deltas_witness :
  run (@GameState_ctor mt19937) bob_scores_10_5 =
    Some (@final_state mt19937 bob_scores_10_5,
          @final_grids mt19937 bob_scores_10_5) ∧
  players_ (@final_state mt19937 bob_scores_10_5) !! "bob" =
    Some {| scores := [15]; current_round_scores_ := [10; 5] |} ∧
  ∃ p, players_ (@final_state mt19937
                   (bob_scores_10_5 ++
                    CallInitRound :: [CallUpdatePlayerScore "bob" 7]))
         !! "bob" = Some p ∧
       scores p !! 0%nat =
         Some (SizeT.wrap (Vector.sum
                 (deltas_for "bob" (current_round_calls bob_scores_10_5)))).
Proof.
  assert (H1 : run (@GameState_ctor mt19937) bob_scores_10_5 =
                 Some (@final_state mt19937 bob_scores_10_5,
                       @final_grids mt19937 bob_scores_10_5))
    by (vm_compute; reflexivity).
  assert (H2 : players_ (@final_state mt19937 bob_scores_10_5) !! "bob" =
                 Some {| scores := [15]; current_round_scores_ := [10; 5] |})
    by (vm_compute; reflexivity).
  assert (H3 : scores {| scores := [15]; current_round_scores_ := [10; 5] |}
               ≠ []) by discriminate.
  assert (H4 : run (@GameState_ctor mt19937)
                 (bob_scores_10_5 ++
                  CallInitRound :: [CallUpdatePlayerScore "bob" 7]) =
               Some (@final_state mt19937
                       (bob_scores_10_5 ++
                        CallInitRound :: [CallUpdatePlayerScore "bob" 7]),
                     @final_grids mt19937
                       (bob_scores_10_5 ++
                        CallInitRound :: [CallUpdatePlayerScore "bob" 7])))
    by (vm_compute; reflexivity).
  split; [exact H1|split; [exact H2|]].
  exact (@closed_round_total_is_sum_of_its_deltas mt19937 bob_scores_10_5
           [CallUpdatePlayerScore "bob" 7] _ _ _ _ "bob" _ H1 H2 H3 H4).
Defined.
